(** * Shamela scraper: a shallow embedding of the extraction core

    The definitions below follow [src/core/enhanced_shamela_scraper.py]
    (and, for page validation, [src/core/ultra_reliable_extractor.py]).
    A Python [str] is a sequence of Unicode code points, a Python [int]
    is an unbounded integer, an exception is an explicit error result. *)

From Stdlib Require Import ZArith NArith String Ascii SpecFloat Lia.
From Stdlib Require DecimalN.
From stdpp Require Import base option list sorting gmap.

Local Open Scope N_scope.

(** ** Python strings *)

(** A character is a Unicode code point. *)
Definition char : Type := N.
Definition pystr : Type := list char.

(** Literals of this file are written as UTF-8 byte strings, exactly as
    they stand in the Python source, and decoded to code points. *)
Fixpoint utf8_decode (bs : list N) : pystr :=
  match bs with
  | [] => []
  | b0 :: t0 =>
      if b0 <? 0x80 then b0 :: utf8_decode t0
      else match t0 with
           | [] => []
           | b1 :: t1 =>
               if b0 <? 0xE0
               then ((b0 mod 0x20) * 0x40 + b1 mod 0x40) :: utf8_decode t1
               else match t1 with
                    | [] => []
                    | b2 :: t2 =>
                        if b0 <? 0xF0
                        then ((b0 mod 0x10) * 0x1000 + (b1 mod 0x40) * 0x40
                              + b2 mod 0x40) :: utf8_decode t2
                        else match t2 with
                             | [] => []
                             | b3 :: t3 =>
                                 ((b0 mod 0x08) * 0x40000
                                  + (b1 mod 0x40) * 0x1000
                                  + (b2 mod 0x40) * 0x40
                                  + b3 mod 0x40) :: utf8_decode t3
                             end
                    end
           end
  end.

Definition u (s : string) : pystr :=
  utf8_decode (map N_of_ascii (list_ascii_of_string s)).

(** Membership of a code point in a table of inclusive ranges. *)
Definition in_ranges (tbl : list (N * N)) (c : char) : bool :=
  existsb (fun r => (fst r <=? c) && (c <=? snd r)) tbl.

(** [str.isspace], [str.strip] and the regular-expression class [\s] all
    use the same CPython predicate; this is its table. *)
Definition whitespace_table : list (N * N) :=
  [ (0x09, 0x0D); (0x1C, 0x20); (0x85, 0x85); (0xA0, 0xA0);
    (0x1680, 0x1680); (0x2000, 0x200A); (0x2028, 0x2029);
    (0x202F, 0x202F); (0x205F, 0x205F); (0x3000, 0x3000) ].

Definition isspace (c : char) : bool := in_ranges whitespace_table c.

(** The Unicode decimal digits (category Nd): the class [\d] of [re] and
    the digits [int()] accepts.  Every block is ten consecutive code
    points for the values 0 to 9; the table lists the block starts. *)
Definition decimal_blocks : list N :=
  [ 0x30; 0x660; 0x6F0; 0x7C0; 0x966; 0x9E6; 0xA66; 0xAE6; 0xB66; 0xBE6;
    0xC66; 0xCE6; 0xD66; 0xDE6; 0xE50; 0xED0; 0xF20; 0x1040; 0x1090;
    0x17E0; 0x1810; 0x1946; 0x19D0; 0x1A80; 0x1A90; 0x1B50; 0x1BB0;
    0x1C40; 0x1C50; 0xA620; 0xA8D0; 0xA900; 0xA9D0; 0xA9F0; 0xAA50;
    0xABF0; 0xFF10; 0x104A0; 0x10D30; 0x11066; 0x110F0; 0x11136;
    0x111D0; 0x112F0; 0x11450; 0x114D0; 0x11650; 0x116C0; 0x11730;
    0x118E0; 0x11950; 0x11C50; 0x11D50; 0x11DA0; 0x16A60; 0x16AC0;
    0x16B50; 0x1D7CE; 0x1D7D8; 0x1D7E2; 0x1D7EC; 0x1D7F6; 0x1E140;
    0x1E2F0; 0x1E950; 0x1FBF0 ].

Fixpoint decimal_in (blocks : list N) (c : char) : option Z :=
  match blocks with
  | [] => None
  | b :: rest =>
      if (b <=? c) && (c <? b + 10) then Some (Z.of_N (c - b))
      else decimal_in rest c
  end.

Definition decimal_value (c : char) : option Z := decimal_in decimal_blocks c.

Definition is_decimal (c : char) : bool :=
  match decimal_value c with Some _ => true | None => false end.




(** [s.lstrip()], [s.rstrip()], [s.strip()]. *)
Fixpoint lstrip (s : pystr) : pystr :=
  match s with
  | [] => []
  | c :: r => if isspace c then lstrip r else s
  end.

Fixpoint rstrip (s : pystr) : pystr :=
  match s with
  | [] => []
  | c :: r =>
      match rstrip r with
      | [] => if isspace c then [] else [c]
      | r' => c :: r'
      end
  end.

Definition strip (s : pystr) : pystr := rstrip (lstrip s).

(** [s.startswith(p)]. *)
Fixpoint startswith (p s : pystr) : bool :=
  match p, s with
  | [], _ => true
  | _ :: _, [] => false
  | a :: p', b :: s' => (a =? b) && startswith p' s'
  end.

(** [p in s] for strings. *)
Fixpoint contains (p s : pystr) : bool :=
  startswith p s || match s with [] => false | _ :: s' => contains p s' end.

(** [s.replace(old, new)] for a one-character [old]. *)
Definition replace1 (old : char) (new : pystr) (s : pystr) : pystr :=
  flat_map (fun c => if c =? old then new else [c]) s.

(** [len(s.split())]: the number of maximal runs of non-whitespace. *)
Fixpoint count_words (in_word : bool) (s : pystr) : Z :=
  match s with
  | [] => 0%Z
  | c :: r =>
      if isspace c then count_words false r
      else ((if in_word then 0 else 1) + count_words true r)%Z
  end.


(** ** Python integers and exceptions *)

Inductive exn : Type :=
  | ValueError
  | AttributeError
  | OverflowError
  | ZeroDivisionError
  | EnhancedShamelaScraperError.

Inductive result (A : Type) : Type :=
  | Ok (a : A)
  | Raise (e : exn).
Arguments Ok {A} a.
Arguments Raise {A} e.

(** The digits of an integer literal as [int()] reads them: decimal
    digits of any script, single underscores allowed between digits. *)
Fixpoint int_digits (acc : Z) (after_digit : bool) (s : pystr) : option Z :=
  match s with
  | [] => if after_digit then Some acc else None
  | c :: r =>
      match decimal_value c with
      | Some d => int_digits (10 * acc + d)%Z true r
      | None =>
          if (c =? 0x5F) && after_digit then int_digits acc false r
          else None
      end
  end.

(** The characters that [int()] skips around a literal: the whitespace
    of [str.strip] without the separators U+001C to U+001F. *)
Definition int_space (c : char) : bool :=
  isspace c && negb ((0x1C <=? c) && (c <=? 0x1F)).

Fixpoint int_lstrip (s : pystr) : pystr :=
  match s with
  | [] => []
  | c :: r => if int_space c then int_lstrip r else s
  end.

Fixpoint int_rstrip (s : pystr) : pystr :=
  match s with
  | [] => []
  | c :: r =>
      match int_rstrip r with
      | [] => if int_space c then [] else [c]
      | r' => c :: r'
      end
  end.

Definition int_strip (s : pystr) : pystr := int_rstrip (int_lstrip s).

(** [sys.get_int_max_str_digits()] as the interpreter starts: [int()]
    refuses a literal with more digits, and so does [str()] an integer
    with more digits.  The sign and the underscores do not count,
    leading zeroes do. *)
Definition int_max_str_digits : N := 4300.

Fixpoint count_digits (s : pystr) : N :=
  match s with
  | [] => 0
  | c :: r => if is_decimal c then N.succ (count_digits r) else count_digits r
  end.

(** [int(s)]: surrounding whitespace, an optional sign, then at most
    [int_max_str_digits] digits; [None] stands for [ValueError]. *)
Definition py_int (s : pystr) : option Z :=
  match int_strip s with
  | [] => None
  | c :: r =>
      let literal := if (c =? 0x2D) || (c =? 0x2B) then r else c :: r in
      if int_max_str_digits <? count_digits literal then None
      else if c =? 0x2D then Z.opp <$> int_digits 0 false r
      else if c =? 0x2B then int_digits 0 false r
      else int_digits 0 false (c :: r)
  end.

(** [str(n)] for an integer of at most [int_max_str_digits] digits, as
    is every integer that the scraper turns into a string: it comes
    from [int()] of a string or from a float. *)
Fixpoint uint_chars (d : Decimal.uint) : pystr :=
  match d with
  | Decimal.Nil => []
  | Decimal.D0 r => 0x30 :: uint_chars r
  | Decimal.D1 r => 0x31 :: uint_chars r
  | Decimal.D2 r => 0x32 :: uint_chars r
  | Decimal.D3 r => 0x33 :: uint_chars r
  | Decimal.D4 r => 0x34 :: uint_chars r
  | Decimal.D5 r => 0x35 :: uint_chars r
  | Decimal.D6 r => 0x36 :: uint_chars r
  | Decimal.D7 r => 0x37 :: uint_chars r
  | Decimal.D8 r => 0x38 :: uint_chars r
  | Decimal.D9 r => 0x39 :: uint_chars r
  end.

Definition py_str (n : Z) : pystr :=
  match n with
  | Z0 => [0x30]
  | Zpos p => uint_chars (Pos.to_uint p)
  | Zneg p => 0x2D :: uint_chars (Pos.to_uint p)
  end.

(** ** Regular expressions

    Every pattern of the scraper is a sequence of quantified character
    classes with at most one capturing group around a single class, so
    a pattern is a list of atoms.  Matching is leftmost, greedy and
    backtracking, as in Python's [re]. *)

Inductive quant : Type :=
  | One
  | Opt
  | Star
  | Plus
  | Exactly (n : nat).

Record atom : Type := Atom {
  a_cls : char -> bool;
  a_quant : quant;
  a_group : bool
}.

Definition regex : Type := list atom.

(** A match object: [group(0)], [group(1)] when the pattern has a group,
    and the text after the match. *)
Record re_match : Type := ReMatch {
  m_text : pystr;
  m_group : option pystr;
  m_rest : pystr
}.

Definition extend (a : atom) (taken : pystr) (m : re_match) : re_match :=
  {| m_text := taken ++ m_text m;
     m_group := if a_group a then Some taken else m_group m;
     m_rest := m_rest m |}.

(** Take as many characters of the class as possible, then give back one
    at a time until the continuation succeeds. *)
Fixpoint greedy (cls : char -> bool) (s : pystr)
    (k : pystr -> pystr -> option re_match) : option re_match :=
  match s with
  | [] => k [] []
  | c :: s' =>
      if cls c then
        match greedy cls s' (fun taken rest => k (c :: taken) rest) with
        | Some m => Some m
        | None => k [] s
        end
      else k [] s
  end.

Fixpoint exactly (cls : char -> bool) (n : nat) (s : pystr)
    (k : pystr -> pystr -> option re_match) : option re_match :=
  match n with
  | O => k [] s
  | S n' =>
      match s with
      | [] => None
      | c :: s' =>
          if cls c then exactly cls n' s' (fun taken rest => k (c :: taken) rest)
          else None
      end
  end.

Fixpoint match_atoms (p : regex) (s : pystr) : option re_match :=
  match p with
  | [] => Some (ReMatch [] None s)
  | a :: p' =>
      let k := fun taken rest => extend a taken <$> match_atoms p' rest in
      match a_quant a with
      | One => exactly (a_cls a) 1 s k
      | Exactly n => exactly (a_cls a) n s k
      | Star => greedy (a_cls a) s k
      | Plus =>
          match s with
          | [] => None
          | c :: s' =>
              if a_cls a c
              then greedy (a_cls a) s' (fun taken rest => k (c :: taken) rest)
              else None
          end
      | Opt =>
          match s with
          | [] => k [] []
          | c :: s' =>
              if a_cls a c then
                match k [c] s' with
                | Some m => Some m
                | None => k [] s
                end
              else k [] s
          end
      end
  end.

(** [re.search(p, s)]: the match at the leftmost position that has one. *)
Fixpoint re_search (p : regex) (s : pystr) : option re_match :=
  match match_atoms p s with
  | Some m => Some m
  | None =>
      match s with
      | [] => None
      | _ :: s' => re_search p s'
      end
  end.

(** What a pattern matches, stated without an algorithm: the text is cut
    into one piece for every atom, in order. *)
Inductive quant_ok (cls : char -> bool) : quant -> pystr -> Prop :=
  | quant_one c : cls c = true -> quant_ok cls One [c]
  | quant_opt_none : quant_ok cls Opt []
  | quant_opt_some c : cls c = true -> quant_ok cls Opt [c]
  | quant_star l : Forall (fun c => cls c = true) l -> quant_ok cls Star l
  | quant_plus l :
      l <> [] -> Forall (fun c => cls c = true) l -> quant_ok cls Plus l
  | quant_exactly n l :
      length l = n -> Forall (fun c => cls c = true) l ->
      quant_ok cls (Exactly n) l.

Inductive matches : regex -> pystr -> option pystr -> Prop :=
  | matches_nil : matches [] [] None
  | matches_cons a p t ts g :
      quant_ok (a_cls a) (a_quant a) t -> matches p ts g ->
      matches (a :: p) (t ++ ts) (if a_group a then Some t else g).

(** [re.sub(cls+, repl, s)]: every maximal run of the class becomes
    [repl]. *)
Fixpoint sub_runs (cls : char -> bool) (repl : pystr) (in_run : bool)
    (s : pystr) : pystr :=
  match s with
  | [] => []
  | c :: r =>
      if cls c then
        if in_run then sub_runs cls repl true r
        else repl ++ sub_runs cls repl true r
      else c :: sub_runs cls repl false r
  end.

Definition lit (s : pystr) : regex :=
  map (fun c => Atom (N.eqb c) One false) s.

Definition ch (s : string) : char := hd 0 (u s).

Definition cls_space : char -> bool := isspace.
Definition cls_digit : char -> bool := is_decimal.
(** [[:：]] *)
Definition cls_colon (c : char) : bool := (c =? 0x3A) || (c =? 0xFF1A).
(** [[\r\n\t]] *)
Definition cls_rnt (c : char) : bool :=
  (c =? 0x0D) || (c =? 0x0A) || (c =? 0x09).
(** [[صس]] *)
Definition cls_sad_sin (c : char) : bool := (c =? ch "ص") || (c =? ch "س").
(** [[0-9٠-٩]] *)
Definition cls_page_digit (c : char) : bool :=
  ((0x30 <=? c) && (c <=? 0x39)) || ((0x660 <=? c) && (c <=? 0x669)).

(** ** Helper functions of the scraper *)

(** [normalize_book_id], lines 162-168. *)
Definition normalize_book_id (book_id : pystr) : result pystr :=
  let book_id := strip book_id in
  if startswith (u "BK") book_id then
    match py_int (drop 2 book_id) with
    | Some n => Ok (py_str n)
    | None => Raise ValueError
    end
  else Ok book_id.

(** [clean_text], lines 810-819. *)
Definition clean_text (text : pystr) : pystr :=
  match text with
  | [] => []
  | _ =>
      let text := sub_runs cls_space (u " ") false (strip text) in
      let text := sub_runs cls_rnt (u " ") false text in
      let text := replace1 0x200D [] (replace1 0x200C [] text) in
      strip text
  end.

(** [convert_arabic_hindi_digits], lines 1471-1483. *)
Definition arabic_hindi_map : list (char * char) :=
  [ (ch "٠", ch "0"); (ch "١", ch "1"); (ch "٢", ch "2"); (ch "٣", ch "3");
    (ch "٤", ch "4"); (ch "٥", ch "5"); (ch "٦", ch "6"); (ch "٧", ch "7");
    (ch "٨", ch "8"); (ch "٩", ch "9") ].

Definition convert_arabic_hindi_digits (text : pystr) : pystr :=
  fold_left (fun t aw => replace1 (fst aw) [snd aw] t) arabic_hindi_map text.

(** [extract_printed_page_number], lines 1608-1639.  The argument is a
    parsed page, of which the function reads the text of the first
    [<title>] tag if there is one, or a plain string.  A plain string
    also has an attribute [find], so it takes the first branch, where
    [find('title')] is an index: index 0 is falsy and leaves the title
    text empty, any other index has no [get_text]. *)
Inductive soup_or_title : Type :=
  | Soup (title_tag : option pystr)
  | TitleString (s : pystr).

Definition printed_page_pattern : regex :=
  [ Atom cls_sad_sin One false;
    Atom cls_space Star false;
    Atom cls_colon Opt false;
    Atom cls_space Star false;
    Atom cls_page_digit Plus true ].

Definition printed_page_of_title (title_text : pystr) : option Z :=
  match title_text with
  | [] => None
  | _ =>
      match re_search printed_page_pattern title_text with
      | Some m =>
          match m_group m with
          | Some page_number_text =>
              py_int (convert_arabic_hindi_digits page_number_text)
          | None => None
          end
      | None => None
      end
  end.

Definition extract_printed_page_number (arg : soup_or_title)
    : result (option Z) :=
  match arg with
  | Soup title_tag =>
      Ok (printed_page_of_title (default [] title_tag))
  | TitleString s =>
      if startswith (u "title") s then Ok (printed_page_of_title [])
      else Raise AttributeError
  end.

(** ** Floating point

    Python floats are IEEE 754 binary64 numbers; [x / y] and [x * y]
    round to nearest-even, [float(n)] of an integer rounds likewise and
    [int(x)] truncates towards zero. *)
Definition prec : Z := 53.
Definition emax : Z := 1024.

Definition float_of_int (n : Z) : spec_float :=
  binary_normalize prec emax n 0 false.



Definition bind {A B : Type} (r : result A) (f : A -> result B) : result B :=
  match r with
  | Ok a => f a
  | Raise e => Raise e
  end.


(** ** Edition and publication year *)

Definition space_plus : regex := [Atom cls_space Plus false].
Definition space_star : regex := [Atom cls_space Star false].
Definition digits_group : regex := [Atom cls_digit Plus true].

(** [extract_edition_number], lines 563-618.  Its list [patterns] is the
    ten ordinal patterns followed by the four numeral patterns. *)
Definition ordinal_patterns : list regex :=
  [ lit (u "الطبعة") ++ space_plus ++ lit (u "الأولى");
    lit (u "الطبعة") ++ space_plus ++ lit (u "الثانية");
    lit (u "الطبعة") ++ space_plus ++ lit (u "الثالثة");
    lit (u "الطبعة") ++ space_plus ++ lit (u "الرابعة");
    lit (u "الطبعة") ++ space_plus ++ lit (u "الخامسة");
    lit (u "الطبعة") ++ space_plus ++ lit (u "السادسة");
    lit (u "الطبعة") ++ space_plus ++ lit (u "السابعة");
    lit (u "الطبعة") ++ space_plus ++ lit (u "الثامنة");
    lit (u "الطبعة") ++ space_plus ++ lit (u "التاسعة");
    lit (u "الطبعة") ++ space_plus ++ lit (u "العاشرة") ].

Definition numeral_patterns : list regex :=
  [ lit (u "ط") ++ space_star ++ digits_group;
    lit (u "الطبعة") ++ space_star ++ digits_group;
    lit (u "طبعة") ++ space_star ++ digits_group;
    digits_group ++ space_star ++ lit (u "طبعة") ].

Definition edition_number_patterns : list regex :=
  ordinal_patterns ++ numeral_patterns.

Definition word_to_number : list (pystr * Z) :=
  [ (u "الأولى", 1%Z); (u "الثانية", 2%Z); (u "الثالثة", 3%Z);
    (u "الرابعة", 4%Z); (u "الخامسة", 5%Z); (u "السادسة", 6%Z);
    (u "السابعة", 7%Z); (u "الثامنة", 8%Z); (u "التاسعة", 9%Z);
    (u "العاشرة", 10%Z) ].

(** The loop over [word_to_number.items()]. *)
Fixpoint search_words (tbl : list (pystr * Z)) (text : pystr) : option Z :=
  match tbl with
  | [] => None
  | (word, number) :: rest =>
      if contains word text then Some number else search_words rest text
  end.

(** The loop over [patterns]: a pattern counts when it matches, has a
    group, and the group converts with [int]. *)
Fixpoint search_patterns (ps : list regex) (text : pystr) : option Z :=
  match ps with
  | [] => None
  | p :: rest =>
      match re_search p text with
      | Some m =>
          match m_group m with
          | Some g =>
              match py_int g with
              | Some n => Some n
              | None => search_patterns rest text
              end
          | None => search_patterns rest text
          end
      | None => search_patterns rest text
      end
  end.

Definition extract_edition_number (edition_text : pystr) : option Z :=
  match edition_text with
  | [] => None
  | _ =>
      let edition_text := strip edition_text in
      match search_words word_to_number edition_text with
      | Some number => Some number
      | None =>
          match search_patterns edition_number_patterns edition_text with
          | Some number => Some number
          | None =>
              (* numbers = re.findall(r'\d+', edition_text); numbers[0] *)
              match re_search [Atom cls_digit Plus false] edition_text with
              | Some m => py_int (m_text m)
              | None => None
              end
          end
      end
  end.





(** The first loop: [(edition, edition_number)]; [edition_of_string] is
    what it does with the cleaned text of the group. *)
Definition edition_of_string (edition_text : pystr) : option pystr * option Z :=
  if contains (u "بدون تاريخ") edition_text
     || contains (u "بدون طبعة") edition_text
  then (None, None)
  else (Some edition_text, extract_edition_number edition_text).





(** ** Book title, lines 830-844 of [extract_enhanced_book_info]

    The landing page is read through [select_one(selector)]; the model
    takes the text of the selected element, if any. *)
Definition title_selectors : list string :=
  [ "h1.book-title"%string; "h1"%string; ".book-title"%string;
    "title"%string ].

Fixpoint title_loop (select_one : string -> option pystr)
    (selectors : list string) (title : pystr) : pystr :=
  match selectors with
  | [] => title
  | selector :: rest =>
      match select_one selector with
      | Some element_text =>
          let title := clean_text element_text in
          if (3 <? length title)%nat then title
          else title_loop select_one rest title
      | None => title_loop select_one rest title
      end
  end.

Definition extract_title (select_one : string -> option pystr)
    : result pystr :=
  match title_loop select_one title_selectors [] with
  | [] => Raise EnhancedShamelaScraperError
  | title => Ok title
  end.

(** ** Sorting and ranges *)

(** [sorted(l)] and [l.sort()] are stable: an element stays in front of
    the later elements it does not exceed. *)
Fixpoint insert_sorted {A : Type} (leb : A -> A -> bool) (x : A)
    (l : list A) : list A :=
  match l with
  | [] => [x]
  | y :: r => if leb x y then x :: l else y :: insert_sorted leb x r
  end.

Definition py_sorted {A : Type} (leb : A -> A -> bool) (l : list A) : list A :=
  foldr (insert_sorted leb) [] l.

Definition key_leb {A : Type} (key : A -> Z) (x y : A) : bool :=
  (key x <=? key y)%Z.


(** [range(start, stop, step)] for a step other than zero. *)
Definition py_range (start stop step : Z) : list Z :=
  let n := if (0 <? step)%Z then ((stop - start + step - 1) / step)%Z
           else ((start - stop - step - 1) / (- step))%Z in
  (fun k => (start + Z.of_nat k * step)%Z) <$> seq 0 (Z.to_nat n).

(** ** Pages *)

(** The fields of [PerformanceConfig] that the page extraction reads. *)
Record PerformanceConfig : Type := {
  max_workers : Z;
  retries : Z;
  use_async : bool;
  async_batch_size : Z;
  multiprocessing_threshold : Z;
  max_processes : Z;
  process_chunk_size : Z;
  skip_existing : bool;
  memory_efficient : bool
}.

Record PageContent : Type := {
  page_number : Z;
  content : pystr;
  html_content : option pystr;
  volume_number : option Z;
  chapter_id : option Z;
  word_count : option Z;
  original_page_number : option Z;
  page_index_internal : option Z;
  printed_missing : bool;
  internal_index : option Z
}.

(** What [extract_enhanced_page_content] reads of a parsed reading page:
    the text of its [<title>] tag, the text of the main content after
    the unwanted elements are removed ([get_text(separator="\n",
    strip=True)]) and its HTML. *)
Record reading_page : Type := {
  title_tag : option pystr;
  body_text : pystr;
  body_html : pystr
}.

(** An answer to one asynchronous GET of a reading page. *)
Inductive async_response : Type :=
  | Status200 (html : pystr)
  | Status404
  | StatusOther
  | RequestFailed.

(** The dictionary [FastHTMLProcessor.extract_page_content] returns; its
    ['page_number'] is the page number it was called with. *)
Record fast_result : Type := {
  fr_content : pystr;
  fr_html_content : pystr;
  fr_word_count : Z
}.

(** The world outside the process.  [cache_get] is the page cache as a
    run finds it: a run looks every key up once, before it stores it.
    [as_completed] is the order in which a pool hands back its futures. *)
Record site : Type := {
  cache_get : pystr -> Z -> option PageContent;
  get_soup : pystr -> Z -> result reading_page;
  session_get : pystr -> Z -> nat -> async_response;
  fast_extract : pystr -> Z -> option fast_result;
  as_completed : forall A : Type, list A -> list A
}.

(** [re.sub(r'\n{3,}', '\n\n', s)]; [pending] counts the newlines of the
    current run. *)
Fixpoint sub_newlines3 (pending : nat) (s : pystr) : pystr :=
  match s with
  | [] => replicate (if (3 <=? pending)%nat then 2%nat else pending) 0x0A
  | c :: r =>
      if c =? 0x0A then sub_newlines3 (S pending) r
      else replicate (if (3 <=? pending)%nat then 2%nat else pending) 0x0A
             ++ c :: sub_newlines3 0 r
  end.

(** [extract_enhanced_page_content], lines 1702-1801. *)
Definition extract_enhanced_page_content (env : site)
    (config : PerformanceConfig) (book_id : pystr) (page_number : Z)
    (has_original_pagination : bool) : result PageContent :=
  bind (normalize_book_id book_id) (fun normalized_id =>
  match (if skip_existing config then cache_get env book_id page_number
         else None) with
  | Some cached_content => Ok cached_content
  | None =>
      bind (get_soup env normalized_id page_number) (fun soup =>
      let content := strip (sub_newlines3 0 (body_text soup)) in
      let html_content :=
        if memory_efficient config then None else Some (body_html soup) in
      let page_index_internal := page_number in
      bind (if has_original_pagination
            then extract_printed_page_number (Soup (title_tag soup))
            else Ok None) (fun printed_page_number =>
      let '(page_number, printed_missing) :=
        if has_original_pagination then
          match printed_page_number with
          | Some printed => (printed, false)
          | None => (page_index_internal, true)
          end
        else (page_number, false) in
      Ok {| page_number := page_number;
            content := content;
            html_content := html_content;
            volume_number := None;
            chapter_id := None;
            word_count := Some (count_words false content);
            original_page_number :=
              if has_original_pagination then printed_page_number else None;
            page_index_internal := Some page_index_internal;
            printed_missing :=
              if has_original_pagination then printed_missing else false;
            internal_index := Some page_index_internal |}))
  end).

(** [extract_single_page] of [extract_pages_traditional_method], lines
    2185-2203: an exception and a blank page both give [None]. *)
Definition extract_single_page (env : site) (config : PerformanceConfig)
    (book_id : pystr) (has_original_pagination : bool) (page_num : Z)
    : option PageContent :=
  match extract_enhanced_page_content env config book_id page_num
          has_original_pagination with
  | Ok page_content =>
      match strip (content page_content) with
      | [] => None
      | _ => Some page_content
      end
  | Raise _ => None
  end.

(** [extract_pages_traditional_method], lines 2179-2240. *)
Definition extract_pages_traditional_method (env : site)
    (config : PerformanceConfig) (book_id : pystr) (total_pages : Z)
    (has_original_pagination : bool) : result (list PageContent) :=
  let single := extract_single_page env config book_id has_original_pagination in
  if (max_workers config =? 1)%Z then
    Ok (omap single (seqZ 1 total_pages))
  else if (max_workers config <=? 0)%Z then
    Raise ValueError (* ThreadPoolExecutor(max_workers=...) *)
  else
    Ok (omap single (as_completed env Z (seqZ 1 total_pages))).

(** [extract_single_page_async] of
    [AsyncPageExtractor.extract_pages_batch_async], lines 1966-2005. *)
Fixpoint extract_single_page_async (env : site) (book_id : pystr)
    (page_num : Z) (attempt remaining : nat) : option PageContent :=
  match remaining with
  | O => None
  | S remaining' =>
      let next :=
        extract_single_page_async env book_id page_num (S attempt) remaining' in
      match session_get env book_id page_num attempt with
      | Status200 html =>
          match fast_extract env html page_num with
          | Some result =>
              match strip (fr_content result) with
              | [] => next
              | _ =>
                  Some {| page_number := page_num;
                          content := fr_content result;
                          html_content := Some (fr_html_content result);
                          volume_number := None;
                          chapter_id := None;
                          word_count := Some (fr_word_count result);
                          original_page_number := None;
                          page_index_internal := None;
                          printed_missing := false;
                          internal_index := None |}
              end
          | None => next
          end
      | Status404 => None
      | StatusOther => next
      | RequestFailed => next
      end
  end.

(** [extract_pages_batch_async], lines 1960-2021: [asyncio.gather]
    returns the results in the order of the tasks. *)
Definition extract_pages_batch_async (env : site) (config : PerformanceConfig)
    (book_id : pystr) (page_range : Z * Z) : list PageContent :=
  let '(start_page, end_page) := page_range in
  omap (fun page =>
          extract_single_page_async env book_id page 0
            (Z.to_nat (retries config)))
       (seqZ start_page (end_page + 1 - start_page)).

(** [extract_pages_async_method], lines 2146-2177. *)
Definition extract_pages_async_method (env : site) (config : PerformanceConfig)
    (book_id : pystr) (total_pages : Z) : result (list PageContent) :=
  let batch_size := async_batch_size config in
  if (batch_size =? 0)%Z then Raise ValueError
  else
    Ok (flat_map
          (fun i =>
             extract_pages_batch_async env config book_id
               (i, Z.min (i + batch_size - 1) total_pages))
          (py_range 1 (total_pages + 1) batch_size)).

(** [MultiprocessExtractor._create_page_chunks], lines 2067-2077. *)
Definition create_page_chunks (config : PerformanceConfig) (total_pages : Z)
    : result (list (Z * Z)) :=
  if (max_processes config =? 0)%Z then Raise ZeroDivisionError
  else
    let chunk_size :=
      Z.max (process_chunk_size config) (total_pages / max_processes config) in
    if (chunk_size =? 0)%Z then Raise ValueError
    else
      Ok ((fun i => (i, Z.min (i + chunk_size - 1) total_pages))
            <$> py_range 1 (total_pages + 1) chunk_size).

(** [MultiprocessExtractor.extract_book_multiprocess], lines 2030-2065:
    every chunk is one batch in a process of its own. *)
Definition extract_book_multiprocess (env : site) (config : PerformanceConfig)
    (book_id : pystr) (total_pages : Z) : result (list PageContent) :=
  bind (create_page_chunks config total_pages) (fun chunks =>
  if (max_processes config <=? 0)%Z then
    Raise ValueError (* ProcessPoolExecutor(max_workers=...) *)
  else
    let all_pages :=
      flat_map (extract_pages_batch_async env config book_id)
               (as_completed env (Z * Z)%type chunks) in
    Ok (py_sorted (key_leb page_number) all_pages)).

(** [min(total_pages, max_pages) if max_pages else total_pages]. *)
Definition actual_max_of (total_pages : Z) (max_pages : option Z) : Z :=
  match max_pages with
  | Some m => if (m =? 0)%Z then total_pages else Z.min total_pages m
  | None => total_pages
  end.

(** [extract_all_pages_enhanced], lines 2102-2144. *)
Definition extract_all_pages_enhanced (env : site) (config : PerformanceConfig)
    (book_id : pystr) (total_pages : Z) (max_pages : option Z)
    (has_original_pagination : bool) : result (list PageContent) :=
  let actual_max := actual_max_of total_pages max_pages in
  bind (if use_async config
           && (multiprocessing_threshold config <=? actual_max)%Z
        then extract_book_multiprocess env config book_id actual_max
        else if use_async config
        then extract_pages_async_method env config book_id actual_max
        else extract_pages_traditional_method env config book_id actual_max
               has_original_pagination)
       (fun pages => Ok (py_sorted (key_leb page_number) pages)).

(** ** Volumes *)














(** Lines 1561-1566: the smallest start page of every part number. *)
Definition add_volume (unique_volumes : gmap Z Z) (e : Z * Z) : gmap Z Z :=
  match unique_volumes !! e.1 with
  | None => <[e.1 := e.2]> unique_volumes
  | Some start_page => <[e.1 := Z.min start_page e.2]> unique_volumes
  end.

Definition unique_volumes_of (volume_data : list (Z * Z)) : gmap Z Z :=
  foldl add_volume ∅ volume_data.







(** ** Page validation of the ultra-reliable extractor

    [DataValidator.validate_page_content] of
    [src/core/ultra_reliable_extractor.py], lines 237-258. *)
Record UltraReliableConfig : Type := {
  min_content_length : Z;
  check_content_quality : bool
}.

(** [[؀-ۿ]] *)
Definition cls_arabic (c : char) : bool := (0x600 <=? c) && (c <=? 0x6FF).

(** The literals [0.3] and [0.1]. *)
Definition float_0_3 : spec_float := S754_finite false 5404319552844595 (-54).
Definition float_0_1 : spec_float := S754_finite false 7205759403792794 (-56).

Definition validate_page_content (config : UltraReliableConfig)
    (content : pystr) : bool :=
  match content with
  | [] => false
  | _ =>
      if (Z.of_nat (length content) <? min_content_length config)%Z then false
      else if check_content_quality config then
        let arabic_chars := Z.of_nat (length (filter (fun c => Is_true (cls_arabic c)) content)) in
        let total_chars := Z.of_nat (length content) in
        if (0 <? total_chars)%Z then
          let arabic_ratio :=
            SFdiv prec emax (float_of_int arabic_chars) (float_of_int total_chars) in
          if SFltb arabic_ratio float_0_3 then SFltb float_0_1 arabic_ratio
          else true
        else true
      else true
  end.

(** ** Reference readings used in the statements *)

(** The value of a digit of either script accepted by the page pattern,
    and the number a string of such digits denotes. *)
Definition mixed_digit_value (c : char) : Z :=
  if c <? 0x660 then Z.of_N (c - 0x30) else Z.of_N (c - 0x660).

Definition mixed_value (ds : pystr) : Z :=
  foldl (fun acc c => (10 * acc + mixed_digit_value c)%Z) 0%Z ds.

(** The western digit for an Arabic-Indic one; other characters stay. *)
Definition to_western (c : char) : char :=
  if (0x660 <=? c) && (c <=? 0x669) then c - 0x660 + 0x30 else c.

(** The longest prefix made of characters of a class, and the first
    integer in a string: the number its first run of decimal digits
    denotes. *)
Fixpoint leading (cls : char -> bool) (s : pystr) : pystr :=
  match s with
  | [] => []
  | c :: r => if cls c then c :: leading cls r else []
  end.

Fixpoint first_integer (s : pystr) : option Z :=
  match s with
  | [] => None
  | c :: r =>
      if is_decimal c then py_int (leading is_decimal s) else first_integer r
  end.

(** A string that does not begin with a character of the class. *)
Definition not_followed_by (cls : char -> bool) (rest : pystr) : Prop :=
  match rest with
  | c :: _ => cls c = false
  | [] => True
  end.

(** No match of the pattern starts anywhere in the text. *)
Definition no_match (p : regex) (text : pystr) : Prop :=
  forall pre txt g rest, text = pre ++ txt ++ rest -> ~ matches p txt g.


(** The numeral patterns capture a run of decimal digits. *)
Definition digit_group_pattern (p : regex) : Prop :=
  forall txt g, matches p txt g ->
    exists ds, g = Some ds /\ ds <> []
               /\ Forall (fun c => is_decimal c = true) ds.

(** The title rule in words: the cleaned texts of the selectors that
    select something, in order; the first one longer than three
    characters, else the last one if it is not empty. *)
Definition cleaned_titles (select_one : string -> option pystr)
    (selectors : list string) : list pystr :=
  omap (fun selector => clean_text <$> select_one selector) selectors.

Definition title_rule (select_one : string -> option pystr) : result pystr :=
  let cleaned := cleaned_titles select_one title_selectors in
  match find (fun t => (3 <? length t)%nat) cleaned with
  | Some t => Ok t
  | None =>
      match last cleaned with
      | Some (c :: r) => Ok (c :: r)
      | _ => Raise EnhancedShamelaScraperError
      end
  end.

(** The start pages that the links give for one part number, and the
    smallest element of a list. *)
Definition starts_of (vol : Z) (volume_data : list (Z * Z)) : list Z :=
  (filter (fun e => e.1 = vol) volume_data).*2.

Definition min_of (l : list Z) : option Z :=
  match l with
  | [] => None
  | x :: r => Some (foldl Z.min x r)
  end.


(** The first match, in the order of the patterns, whose group is short
    enough for [int()]. *)
Fixpoint first_match_within (ps : list regex) (text : pystr)
    : option re_match :=
  match ps with
  | [] => None
  | p :: rest =>
      match re_search p text with
      | Some m =>
          if N.of_nat (length (default [] (m_group m))) <=? int_max_str_digits
          then Some m
          else first_match_within rest text
      | None => first_match_within rest text
      end
  end.

(** The page cache holds nothing for the book when the run starts. *)
Definition cold_cache (env : site) (config : PerformanceConfig)
    (book_id : pystr) : Prop :=
  skip_existing config = false \/ forall n, cache_get env book_id n = None.

(** A pool hands back every future once. *)
Definition fair_pool (env : site) : Prop :=
  forall (A : Type) (l : list A), as_completed env A l ≡ₚ l.

(** ** Sample inputs *)

(** The defaults of [PerformanceConfig]; [max_processes] is
    [min(cpu_count, 8)]. *)
Definition default_config (cpu_count : Z) : PerformanceConfig :=
  {| max_workers := 4; retries := 5; use_async := true;
     async_batch_size := 50; multiprocessing_threshold := 200;
     max_processes := Z.min cpu_count 8; process_chunk_size := 100;
     skip_existing := true; memory_efficient := true |}.

(** The thread-based method, one page at a time. *)
Definition sequential_config : PerformanceConfig :=
  {| max_workers := 1; retries := 5; use_async := false;
     async_batch_size := 50; multiprocessing_threshold := 200;
     max_processes := 8; process_chunk_size := 100;
     skip_existing := true; memory_efficient := true |}.

(** A site with an empty cache whose reading pages are given by a
    function of the page number. *)
Definition site_of_pages (pages : Z -> result reading_page) : site :=
  {| cache_get := fun _ _ => None;
     get_soup := fun _ n => pages n;
     session_get := fun _ _ _ => Status404;
     fast_extract := fun _ _ => None;
     as_completed := fun _ l => reverse l |}.

(** Every reading page carries the printed number equal to its own
    index. *)
Definition printed_equals_internal : site :=
  site_of_pages (fun n =>
    Ok {| title_tag := Some (u "كتاب - ص: " ++ py_str n);
          body_text := u "نص الصفحة"; body_html := [] |}).

(** Two reading pages whose printed numbers run backwards: 5, then 4. *)
Definition printed_backwards : site :=
  site_of_pages (fun n =>
    Ok {| title_tag := Some (u "ص: " ++ py_str (6 - n));
          body_text := u "نص الصفحة"; body_html := [] |}).

(** Reading pages with the three-letter body ["abc"]. *)
Definition short_latin_pages : site :=
  site_of_pages (fun n =>
    Ok {| title_tag := None; body_text := u "abc"; body_html := [] |}).



(** ** Sample inputs of the asynchronous paths *)


(** The defaults with small batches and chunks, and the multiprocess
    path from five pages on. *)
Definition small_batches (threshold : Z) : PerformanceConfig :=
  {| max_workers := 4; retries := 5; use_async := true;
     async_batch_size := 2; multiprocessing_threshold := threshold;
     max_processes := 2; process_chunk_size := 3;
     skip_existing := true; memory_efficient := true |}.

(** ** The response cache

    [OptimizedCache], lines 171-203: a dictionary and the list of its
    keys from the least to the most recently used one.  The errors are
    those of [list.remove], [list.pop] and [del] on a dictionary. *)
Module OptimizedCache.

Inductive error : Type :=
  | ValueError (* list.remove(x): x not in list *)
  | IndexError (* pop from empty list *)
  | KeyError.

Record t (V : Type) : Type := Build {
  cache : gmap pystr V;
  max_size : Z;
  access_order : list pystr
}.
Arguments Build {V} _ _ _.
Arguments cache {V} _.
Arguments max_size {V} _.
Arguments access_order {V} _.

(** [OptimizedCache(max_size)]. *)
Definition init {V : Type} (max_size : Z) : t V := Build ∅ max_size [].

(** [l.remove(key)]: the list without the first [key]. *)
Fixpoint remove (key : pystr) (l : list pystr) : option (list pystr) :=
  match l with
  | [] => None
  | x :: r =>
      if bool_decide (x = key) then Some r
      else match remove key r with
           | Some r' => Some (x :: r')
           | None => None
           end
  end.

(** [self.access_order.remove(key); self.access_order.append(key)]. *)
Definition move_to_end (key : pystr) (l : list pystr)
    : error + list pystr :=
  match remove key l with
  | Some l' => inr (l' ++ [key])
  | None => inl ValueError
  end.

(** [get(key, default)]: the value and the cache afterwards. *)
Definition get {V : Type} (self : t V) (key : pystr) (default : option V)
    : error + option V * t V :=
  match cache self !! key with
  | Some value =>
      match move_to_end key (access_order self) with
      | inr order => inr (Some value, Build (cache self) (max_size self) order)
      | inl e => inl e
      end
  | None => inr (default, self)
  end.

(** [set(key, value)]. *)
Definition set {V : Type} (self : t V) (key : pystr) (value : V)
    : error + t V :=
  match cache self !! key with
  | Some _ =>
      match move_to_end key (access_order self) with
      | inr order =>
          inr (Build (<[key := value]> (cache self)) (max_size self) order)
      | inl e => inl e
      end
  | None =>
      if (max_size self <=? Z.of_nat (size (cache self)))%Z then
        match access_order self with
        | [] => inl IndexError
        | oldest :: order =>
            match cache self !! oldest with
            | None => inl KeyError
            | Some _ =>
                inr (Build (<[key := value]> (delete oldest (cache self)))
                           (max_size self) (order ++ [key]))
            end
        end
      else
        inr (Build (<[key := value]> (cache self)) (max_size self)
                   (access_order self ++ [key]))
  end.

Definition clear {V : Type} (self : t V) : t V :=
  Build ∅ (max_size self) [].

End OptimizedCache.

(** A call of a method of the cache, and a sequence of calls from a
    given state on. *)
Inductive cache_call (V : Type) : Type :=
  | CallGet (key : pystr)
  | CallSet (key : pystr) (value : V)
  | CallClear.
Arguments CallGet {V} key.
Arguments CallSet {V} key value.
Arguments CallClear {V}.

Fixpoint cache_calls {V : Type} (calls : list (cache_call V))
    (self : OptimizedCache.t V) : OptimizedCache.error + OptimizedCache.t V :=
  match calls with
  | [] => inr self
  | call :: rest =>
      match match call with
            | CallGet key =>
                match OptimizedCache.get self key None with
                | inr (_, self') => inr self'
                | inl e => inl e
                end
            | CallSet key value => OptimizedCache.set self key value
            | CallClear => inr (OptimizedCache.clear self)
            end with
      | inr self' => cache_calls rest self'
      | inl e => inl e
      end
  end.

(** The keys of the dictionary are the entries of the access list, each
    one once. *)
Definition cache_consistent {V : Type} (self : OptimizedCache.t V) : Prop :=
  NoDup (OptimizedCache.access_order self)
  /\ forall key, key ∈ OptimizedCache.access_order self
                 <-> is_Some (OptimizedCache.cache self !! key).

(** ** Requests with retries

    [safe_request], lines 751-802, over the global cache.  The cache
    holds responses under their URL and pages under their page key. *)
Record response : Type := {
  status_code : Z;
  text : pystr
}.

(** [response.raise_for_status()] raises for a client or server error. *)
Definition raises_for_status (r : response) : bool :=
  (400 <=? status_code r)%Z && (status_code r <? 600)%Z.

Inductive cached_value : Type :=
  | CachedResponse (r : response)
  | CachedPage (p : PageContent).

(** The truth value of a cached object: [bool(response)] is
    [response.ok]; a page is an object without [__bool__]. *)
Definition truthy (v : cached_value) : bool :=
  match v with
  | CachedResponse r => negb (raises_for_status r)
  | CachedPage _ => true
  end.

(** What [http_session.get] does: it answers, or it raises a
    [requests.RequestException]. *)
Inductive http_answer : Type :=
  | Answer (r : response)
  | RequestException.

Inductive raised : Type :=
  | CacheRaised (e : OptimizedCache.error)
  | Raised (e : exn).

(** The end of a call: the value returned with the cache it leaves, or
    the exception; in both cases with the number of GET requests sent. *)
Inductive outcome : Type :=
  | Returns (value : option cached_value)
            (global_cache : OptimizedCache.t cached_value) (gets : nat)
  | Raises (e : raised) (gets : nat).

(** The loop [for attempt in range(retries)]; [http_get attempt] is the
    answer to the GET of that attempt.  Falling off the loop returns
    [None]. *)
Fixpoint safe_request_loop (http_get : Z -> http_answer)
    (global_cache : OptimizedCache.t cached_value) (url : pystr)
    (retries : Z) (use_cache : bool) (attempts : list Z) (gets : nat)
    : outcome :=
  match attempts with
  | [] => Returns None global_cache gets
  | attempt :: rest =>
      let next :=
        safe_request_loop http_get global_cache url retries use_cache rest
          (S gets) in
      let failed :=
        Raises (Raised EnhancedShamelaScraperError) (S gets) in
      match http_get attempt with
      | Answer response =>
          if (status_code response =? 200)%Z then
            if use_cache then
              match OptimizedCache.set global_cache url
                      (CachedResponse response) with
              | inr global_cache' =>
                  Returns (Some (CachedResponse response)) global_cache'
                          (S gets)
              | inl e => Raises (CacheRaised e) (S gets)
              end
            else Returns (Some (CachedResponse response)) global_cache (S gets)
          else if (status_code response =? 404)%Z then
            if contains (u "الصفحة غير موجودة") (text response)
               || contains (u "Page not found") (text response)
            then if (attempt =? retries - 1)%Z then failed else next
            else if (attempt <? retries - 1)%Z then next else failed
          else if raises_for_status response then
            if (attempt <? retries - 1)%Z then next else failed
          else next
      | RequestException =>
          if (attempt <? retries - 1)%Z then next else failed
      end
  end.

Definition safe_request (http_get : Z -> http_answer)
    (global_cache : OptimizedCache.t cached_value) (url : pystr)
    (retries : Z) (use_cache : bool) : outcome :=
  let loop global_cache :=
    safe_request_loop http_get global_cache url retries use_cache
      (seqZ 0 retries) 0 in
  if use_cache then
    match OptimizedCache.get global_cache url None with
    | inl e => Raises (CacheRaised e) 0
    | inr (Some cached_response, global_cache') =>
        if truthy cached_response
        then Returns (Some cached_response) global_cache' 0
        else loop global_cache'
    | inr (None, global_cache') => loop global_cache'
    end
  else loop global_cache.

(** Two answers that differ at most in the text of a 404 page. *)
Definition same_but_404_text (a b : http_answer) : Prop :=
  a = b \/ exists r r', a = Answer r /\ b = Answer r'
                        /\ status_code r = 404%Z /\ status_code r' = 404%Z.

(** An answer that is an error: an exception, or a status from 400 to
    599. *)
Definition failed_answer (a : http_answer) : Prop :=
  match a with
  | Answer r => raises_for_status r = true
  | RequestException => True
  end.

(** A site that answers 503 twice and then 200. *)
Definition third_time_lucky (attempt : Z) : http_answer :=
  if (attempt <? 2)%Z then Answer {| status_code := 503; text := [] |}
  else Answer {| status_code := 200; text := u "<html></html>" |}.

(** A site that answers 204 without content. *)
Definition no_content (attempt : Z) : http_answer :=
  Answer {| status_code := 204; text := [] |}.

(** ** The navigation map from printed to internal page numbers *)

(** The pages that [build_page_navigation_map] reads, lines 1416-1427:
    all of them for a book of at most 50 pages, every [total // 20]-th
    one otherwise, with the first and the last page. *)
Definition sample_pages_of (total_pages : Z) : list Z :=
  if (total_pages <=? 50)%Z then py_range 1 (total_pages + 1) 1
  else
    let step := Z.max 1 (total_pages / 20) in
    let sample_pages := py_range 1 (total_pages + 1) step in
    let sample_pages :=
      if bool_decide (1%Z ∈ sample_pages) then sample_pages
      else 1%Z :: sample_pages in
    if bool_decide (total_pages ∈ sample_pages) then sample_pages
    else sample_pages ++ [total_pages].

(** One turn of the loop of lines 1431-1444: a page that cannot be read
    and a page without a printed number (or with the number 0, which is
    falsy) leave the map as it is. *)
Definition record_page (env : site) (normalized_id : pystr)
    (navigation_map : gmap Z Z) (internal_page : Z) : gmap Z Z :=
  match get_soup env normalized_id internal_page with
  | Ok soup =>
      match extract_printed_page_number (Soup (title_tag soup)) with
      | Ok (Some printed_page) =>
          if (printed_page =? 0)%Z then navigation_map
          else
            match navigation_map !! printed_page with
            | None => <[printed_page := internal_page]> navigation_map
            | Some known =>
                if (internal_page <? known)%Z
                then <[printed_page := internal_page]> navigation_map
                else navigation_map
            end
      | _ => navigation_map
      end
  | Raise _ => navigation_map
  end.

(** [build_page_navigation_map], lines 1403-1449. *)
Definition build_page_navigation_map (env : site) (book_id : pystr)
    (total_pages : Z) (has_original_pagination : bool) : result (gmap Z Z) :=
  if negb has_original_pagination then Ok ∅
  else
    bind (normalize_book_id book_id) (fun normalized_id =>
    Ok (foldl (record_page env normalized_id) ∅ (sample_pages_of total_pages))).

(** [find_internal_page_for_printed], lines 1451-1468; [p] is a key of
    the map wherever it is looked up. *)
Definition find_internal_page_for_printed (printed_page : Z)
    (navigation_map : gmap Z Z) : option Z :=
  match navigation_map !! printed_page with
  | Some internal_page => Some internal_page
  | None =>
      let sorted_printed := py_sorted Z.leb (map_to_list navigation_map).*1 in
      match List.find (fun p => (printed_page <=? p)%Z) sorted_printed with
      | Some p => navigation_map !! p
      | None =>
          match last sorted_printed with
          | Some p => navigation_map !! p
          | None => None
          end
      end
  end.

(** The printed number that the navigation map records for a page: the
    one in its title, unless the page cannot be read or the number is
    0. *)
Definition printed_of (env : site) (normalized_id : pystr) (internal_page : Z)
    : option Z :=
  match get_soup env normalized_id internal_page with
  | Ok soup =>
      match extract_printed_page_number (Soup (title_tag soup)) with
      | Ok (Some printed_page) =>
          if (printed_page =? 0)%Z then None else Some printed_page
      | _ => None
      end
  | Raise _ => None
  end.

(** Reading pages whose printed numbers start again at 1 on page 4. *)
Definition two_part_numbering : site :=
  site_of_pages (fun n =>
    Ok {| title_tag := Some (u "ص: " ++ py_str (if (n <? 4)%Z then n else n - 3));
          body_text := u "نص الصفحة"; body_html := [] |}).

(** * Properties *)

(** ** The matcher against the declarative reading of a pattern *)

Section Engine.
Variable cls : char -> bool.
Abbreviation all_cls := (Forall (fun c => cls c = true)).

Lemma greedy_None s : forall k,
  greedy cls s k = None ->
  forall taken rest, s = taken ++ rest -> all_cls taken -> k taken rest = None.
Proof.
  induction s as [|c s IH]; intros k H taken rest E Ht; simpl in H.
  - symmetry in E. apply app_eq_nil in E as [-> ->]. exact H.
  - destruct taken as [|c' taken]; simpl in E.
    + subst rest. destruct (cls c); [| exact H].
      destruct (greedy cls s _); [discriminate | exact H].
    + injection E as <- ->. apply Forall_cons in Ht as [Hc Ht].
      rewrite Hc in H.
      destruct (greedy cls (taken ++ rest) _) eqn:Hg; [discriminate |].
      exact (IH _ Hg taken rest eq_refl Ht).
Qed.

Lemma greedy_Some s : forall k m,
  greedy cls s k = Some m ->
  exists taken rest,
    s = taken ++ rest /\ all_cls taken /\ k taken rest = Some m /\
    forall taken' rest',
      s = taken' ++ rest' -> all_cls taken' ->
      (length taken < length taken')%nat -> k taken' rest' = None.
Proof.
  induction s as [|c s IH]; intros k m H; simpl in H.
  - exists [], []. repeat split; auto.
    intros [|] r' E _ Hl; simpl in *; [lia | discriminate].
  - destruct (cls c) eqn:Hc.
    + destruct (greedy cls s (fun taken rest => k (c :: taken) rest))
        as [m'|] eqn:Hg.
      * injection H as ->. apply IH in Hg as (t & r & -> & Ht & Hk & Hmax).
        exists (c :: t), r. repeat split; auto.
        intros [|c' t'] r' E Ht' Hl; simpl in *; [lia |].
        injection E as <- E. apply Forall_cons in Ht' as [_ Ht'].
        apply (Hmax t' r'); auto. lia.
      * exists [], (c :: s). repeat split; auto.
        intros [|c' t'] r' E Ht' Hl; simpl in *; [lia |].
        injection E as <- E. apply Forall_cons in Ht' as [_ Ht'].
        exact (greedy_None _ _ Hg t' r' E Ht').
    + exists [], (c :: s). repeat split; auto.
      intros [|c' t'] r' E Ht' Hl; simpl in *; [lia |].
      injection E as <- E. apply Forall_cons in Ht' as [Hc' _]. congruence.
Qed.

(** When nothing can make the continuation fail, the longest run is taken. *)
Lemma greedy_longest s k m :
  (forall taken rest, is_Some (k taken rest)) ->
  greedy cls s k = Some m ->
  exists taken rest,
    s = taken ++ rest /\ all_cls taken /\ k taken rest = Some m /\
    match rest with c :: _ => cls c = false | [] => True end.
Proof.
  intros Hk H. apply greedy_Some in H as (t & r & -> & Ht & Hm & Hmax).
  exists t, r. repeat split; auto.
  destruct r as [|c r]; [done |].
  destruct (cls c) eqn:Hc; [| done].
  specialize (Hmax (t ++ [c]) r). rewrite <- app_assoc in Hmax.
  specialize (Hmax eq_refl).
  destruct (Hk (t ++ [c]) r) as [x Hx]. rewrite Hmax in Hx; [done | |].
  - apply Forall_app; split; auto.
  - rewrite length_app. simpl. lia.
Qed.

Lemma exactly_Some n : forall s k m,
  exactly cls n s k = Some m <->
  exists taken rest,
    s = taken ++ rest /\ length taken = n /\ all_cls taken /\
    k taken rest = Some m.
Proof.
  induction n as [|n IH]; intros s k m; simpl.
  - split.
    + intros H. exists [], s. auto.
    + intros ([|] & r & -> & Hl & _ & Hk); [exact Hk | discriminate].
  - destruct s as [|c s].
    + split; [discriminate |].
      intros ([|] & r & E & Hl & _); simpl in *; discriminate.
    + destruct (cls c) eqn:Hc.
      * rewrite IH. split.
        -- intros (t & r & -> & Hl & Ht & Hk).
           exists (c :: t), r. simpl. repeat split; auto.
        -- intros ([|c' t] & r & E & Hl & Ht & Hk); simpl in *; [discriminate |].
           injection E as <- ->. apply Forall_cons in Ht as [_ Ht].
           exists t, r. repeat split; auto.
      * split; [discriminate |].
        intros ([|c' t] & r & E & Hl & Ht & Hk); simpl in *; [discriminate |].
        injection E as <- ->. apply Forall_cons in Ht as [Hc' _]. congruence.
Qed.
End Engine.

Lemma match_atoms_cons a p s m :
  match_atoms (a :: p) s = Some m ->
  exists taken rest m',
    s = taken ++ rest /\ quant_ok (a_cls a) (a_quant a) taken /\
    match_atoms p rest = Some m' /\ m = extend a taken m'.
Proof.
  simpl. 
  assert (Hk : forall t r, extend a t <$> match_atoms p r = Some m ->
            exists m', match_atoms p r = Some m' /\ m = extend a t m').
  { intros t r H. destruct (match_atoms p r) as [m'|]; [| discriminate].
    injection H as <-. eauto. }
  destruct (a_quant a) eqn:Hq.
  - destruct s as [|c s]; [discriminate |].
    destruct (a_cls a c) eqn:Hc; [| discriminate].
    intros H. apply Hk in H as (m' & Hm & ->). exists [c], s, m'.
    repeat split; auto. by constructor.
  - destruct s as [|c s].
    + intros H. apply Hk in H as (m' & Hm & ->). exists [], [], m'.
      repeat split; auto. constructor.
    + destruct (a_cls a c) eqn:Hc.
      * destruct (extend a [c] <$> match_atoms p s) eqn:H1.
        -- intros [= ->]. apply Hk in H1 as (m' & Hm & ->).
           exists [c], s, m'. repeat split; auto. by constructor.
        -- intros H. apply Hk in H as (m' & Hm & ->). exists [], (c :: s), m'.
           repeat split; auto. constructor.
      * intros H. apply Hk in H as (m' & Hm & ->). exists [], (c :: s), m'.
        repeat split; auto. constructor.
  - intros H. apply greedy_Some in H as (t & r & -> & Ht & H & _).
    apply Hk in H as (m' & Hm & ->). exists t, r, m'. repeat split; auto.
    by constructor.
  - destruct s as [|c s]; [discriminate |].
    destruct (a_cls a c) eqn:Hc; [| discriminate].
    intros H. apply greedy_Some in H as (t & r & -> & Ht & H & _).
    apply Hk in H as (m' & Hm & ->). exists (c :: t), r, m'. repeat split; auto.
    constructor; [done | by constructor].
  - intros H. apply exactly_Some in H as (t & r & -> & Hl & Ht & H).
    apply Hk in H as (m' & Hm & ->). exists t, r, m'. repeat split; auto.
    by constructor.
Qed.

Lemma match_atoms_sound p : forall s m,
  match_atoms p s = Some m ->
  s = m_text m ++ m_rest m /\ matches p (m_text m) (m_group m).
Proof.
  induction p as [|a p IH]; intros s m H.
  - injection H as <-. simpl. split; [done | constructor].
  - apply match_atoms_cons in H as (t & r & m' & -> & Hq & Hm & ->).
    apply IH in Hm as [-> Hm]. simpl. rewrite <- app_assoc. split; [done |].
    by constructor.
Qed.

Lemma match_atoms_complete p : forall txt g rest,
  matches p txt g -> is_Some (match_atoms p (txt ++ rest)).
Proof.
  induction p as [|a p IH]; intros txt g rest H; inversion H as [|? ? t ts g' Hq Hm]; subst.
  - simpl. eauto.
  - rewrite <- app_assoc.
    destruct (IH _ _ rest Hm) as [m' Hm'].
    destruct (match_atoms (a :: p) (t ++ ts ++ rest)) eqn:Hn; [eauto | exfalso].
    simpl in Hn.
    inversion Hq as [c Hc Eq|Eq|c Hc Eq|l Hl Eq|l Hne Hl Eq|n l Hlen Hl Eq]; subst;
      rewrite <- Eq in Hn; simpl in Hn.
    + rewrite Hc, Hm' in Hn. discriminate.
    + destruct (ts ++ rest) as [|c r] eqn:E; simpl in Hn.
      * rewrite Hm' in Hn. discriminate.
      * destruct (a_cls a c).
        -- destruct (extend a [c] <$> match_atoms p r); [discriminate |].
           rewrite Hm' in Hn. discriminate.
        -- rewrite Hm' in Hn. discriminate.
    + rewrite Hc, Hm' in Hn. discriminate.
    + pose proof (greedy_None _ _ _ Hn t (ts ++ rest) eq_refl Hl) as Hx.
      simpl in Hx. rewrite Hm' in Hx. discriminate.
    + destruct t as [|c t]; [done |]. simpl in Hn.
      apply Forall_cons in Hl as [Hc Ht]. rewrite Hc in Hn.
      pose proof (greedy_None _ _ _ Hn t (ts ++ rest) eq_refl Ht) as Hx.
      simpl in Hx. rewrite Hm' in Hx. discriminate.
    + assert (exactly (a_cls a) (length t) (t ++ ts ++ rest)
                (fun taken r => extend a taken <$> match_atoms p r)
              = Some (extend a t m')) as Hx; [| congruence].
      apply exactly_Some. exists t, (ts ++ rest). repeat split; auto.
      by rewrite Hm'.
Qed.

Lemma re_search_Some p : forall s m,
  re_search p s = Some m ->
  exists pre,
    s = pre ++ m_text m ++ m_rest m /\
    match_atoms p (m_text m ++ m_rest m) = Some m /\
    forall pre1 pre2, pre = pre1 ++ pre2 -> pre2 <> [] ->
      match_atoms p (pre2 ++ m_text m ++ m_rest m) = None.
Proof.
  induction s as [|c s IH]; intros m H; simpl in H.
  - destruct (match_atoms p []) eqn:E; [| discriminate]. injection H as ->.
    exists []. pose proof (match_atoms_sound _ _ _ E) as [Hs _].
    rewrite <- Hs. repeat split; auto.
    intros p1 p2 E2 Hne. symmetry in E2. apply app_eq_nil in E2 as [_ ->]. done.
  - destruct (match_atoms p (c :: s)) eqn:E.
    + injection H as ->. exists [].
      pose proof (match_atoms_sound _ _ _ E) as [Hs _].
      rewrite <- Hs. repeat split; auto.
      intros p1 p2 E2 Hne. symmetry in E2. apply app_eq_nil in E2 as [_ ->]. done.
    + apply IH in H as (pre & -> & Hm & Hleft).
      exists (c :: pre). repeat split; auto.
      intros [|c' p1] p2 E2 Hne; simpl in E2.
      * subst p2. exact E.
      * injection E2 as <- ->. by apply (Hleft p1 p2).
Qed.

Lemma re_search_None p : forall s,
  re_search p s = None ->
  forall pre suf, s = pre ++ suf -> match_atoms p suf = None.
Proof.
  induction s as [|c s IH]; intros H pre suf E; simpl in H.
  - symmetry in E. apply app_eq_nil in E as [-> ->].
    destruct (match_atoms p []); [discriminate | done].
  - destruct (match_atoms p (c :: s)) eqn:Hm; [discriminate |].
    destruct pre as [|c' pre]; simpl in E.
    + by subst suf.
    + injection E as <- ->. by apply (IH H pre suf).
Qed.
(** ** Stripping *)

Lemma rstrip_cons_nonspace c r :
  isspace c = false -> rstrip (c :: r) = c :: rstrip r.
Proof. intros H. simpl. rewrite H. by destruct (rstrip r). Qed.

Lemma lstrip_cons_nonspace c r : isspace c = false -> lstrip (c :: r) = c :: r.
Proof. intros H. simpl. by rewrite H. Qed.



Lemma elem_of_rstrip c s : c ∈ s -> isspace c = false -> c ∈ rstrip s.
Proof.
  induction s as [|d s IH]; intros Hin Hc; [by apply elem_of_nil in Hin |].
  apply elem_of_cons in Hin as [->|Hin].
  - rewrite rstrip_cons_nonspace by done. left.
  - specialize (IH Hin Hc). simpl.
    destruct (rstrip s) as [|e r]; [by apply elem_of_nil in IH |].
    by right.
Qed.

Lemma elem_of_lstrip c s : c ∈ s -> isspace c = false -> c ∈ lstrip s.
Proof.
  induction s as [|d s IH]; intros Hin Hc; [done |]. simpl.
  destruct (isspace d) eqn:Hd; [| done].
  apply elem_of_cons in Hin as [->|Hin]; [congruence | auto].
Qed.

Lemma elem_of_strip c s : c ∈ s -> isspace c = false -> c ∈ strip s.
Proof. intros. apply elem_of_rstrip; [by apply elem_of_lstrip | done]. Qed.

(** ** Integer literals *)

Lemma int_space_isspace c : isspace c = false -> int_space c = false.
Proof. unfold int_space. by intros ->. Qed.

Lemma int_rstrip_cons_nonspace c r :
  int_space c = false -> int_rstrip (c :: r) = c :: int_rstrip r.
Proof. intros H. simpl. rewrite H. by destruct (int_rstrip r). Qed.

Lemma int_strip_nonspace s :
  Forall (fun c => isspace c = false) s -> int_strip s = s.
Proof.
  intros H. unfold int_strip.
  assert (int_lstrip s = s) as ->.
  { destruct H as [|c t Hc H]; [done |]. simpl.
    by rewrite (int_space_isspace c Hc). }
  induction H as [|d t Hd _ IH]; [done |].
  by rewrite int_rstrip_cons_nonspace, IH by (by apply int_space_isspace).
Qed.


Lemma count_digits_decimal ds :
  Forall (fun c => is_decimal c = true) ds ->
  count_digits ds = N.of_nat (length ds).
Proof.
  induction 1 as [|c ds Hc _ IH]; [done |]. simpl. rewrite Hc, IH. lia.
Qed.


(** A literal of decimal digits only: [int()] reads it when it has at
    most [int_max_str_digits] digits and refuses it otherwise. *)
Lemma py_int_digits ds :
  ds <> [] -> Forall (fun c => is_decimal c = true) ds ->
  Forall (fun c => isspace c = false) ds ->
  py_int ds
  = if N.of_nat (length ds) <=? int_max_str_digits
    then int_digits 0 false ds else None.
Proof.
  intros Hne Hd Hs. unfold py_int. rewrite int_strip_nonspace by done.
  destruct ds as [|c r]; [done |].
  apply Forall_cons in Hd as Hd'. destruct Hd' as [Hc _].
  assert ((c =? 0x2D) = false) as ->.
  { apply N.eqb_neq. intros ->. discriminate. }
  assert ((c =? 0x2B) = false) as ->.
  { apply N.eqb_neq. intros ->. discriminate. }
  cbn [orb]. rewrite (count_digits_decimal (c :: r)) by done.
  destruct (N.leb_spec (N.of_nat (length (c :: r))) int_max_str_digits) as [H|H].
  - by assert ((int_max_str_digits <? N.of_nat (length (c :: r))) = false) as ->
      by (apply N.ltb_ge; lia).
  - by assert ((int_max_str_digits <? N.of_nat (length (c :: r))) = true) as ->
      by (apply N.ltb_lt; lia).
Qed.








(** ** C3: normalisation of the book identifier *)


(** [int()] takes at most 4300 digits, leading zeroes included. *)
Lemma normalize_book_id_over_limit :
  normalize_book_id (u "BK" ++ replicate 4300 (ch "0") ++ u "7") = Raise ValueError /\
  normalize_book_id (u "BK" ++ replicate 4299 (ch "0") ++ u "7") = Ok (u "7").
Proof. by vm_compute. Qed.



(** ** The last atom takes all it can *)

Lemma match_atoms_last_plus cls grp p0 : forall s m,
  match_atoms (p0 ++ [Atom cls Plus grp]) s = Some m ->
  not_followed_by cls (m_rest m).
Proof.
  induction p0 as [|a p0 IH]; intros s m H.
  - simpl in H. destruct s as [|c s]; [discriminate |].
    destruct (cls c); [| discriminate].
    apply greedy_longest in H as (t & r & -> & _ & Hk & Hr).
    + injection Hk as <-. exact Hr.
    + intros; simpl; eauto.
  - rewrite <- app_comm_cons in H.
    apply match_atoms_cons in H as (t & r & m' & -> & _ & Hm & ->).
    simpl. by apply (IH r).
Qed.

Lemma re_search_no_match p s : re_search p s = None <-> no_match p s.
Proof.
  split.
  - intros H pre txt g rest E Hm.
    pose proof (re_search_None _ _ H pre (txt ++ rest) E) as Hn.
    destruct (match_atoms_complete _ _ _ rest Hm) as [x Hx]. congruence.
  - intros H. destruct (re_search p s) as [m|] eqn:E; [exfalso | done].
    apply re_search_Some in E as (pre & -> & Hm & _).
    apply match_atoms_sound in Hm as [_ Hm]. exact (H pre _ _ _ eq_refl Hm).
Qed.

(** ** Digits of both scripts *)

Lemma replace1_map old new s :
  replace1 old [new] s = (fun c => if c =? old then new else c) <$> s.
Proof.
  unfold replace1. induction s as [|c s IH]; [done |]. simpl.
  destruct (c =? old); simpl; by rewrite IH.
Qed.

Lemma convert_arabic_hindi_digits_map s :
  convert_arabic_hindi_digits s = to_western <$> s.
Proof.
  unfold convert_arabic_hindi_digits, arabic_hindi_map. simpl.
  rewrite !replace1_map, <- !list_fmap_compose.
  apply list_fmap_ext. intros _ c _. unfold compose, to_western.
  change (ch "٠") with 0x660. change (ch "١") with 0x661.
  change (ch "٢") with 0x662. change (ch "٣") with 0x663.
  change (ch "٤") with 0x664. change (ch "٥") with 0x665.
  change (ch "٦") with 0x666. change (ch "٧") with 0x667.
  change (ch "٨") with 0x668. change (ch "٩") with 0x669.
  change (ch "0") with 0x30. change (ch "1") with 0x31.
  change (ch "2") with 0x32. change (ch "3") with 0x33.
  change (ch "4") with 0x34. change (ch "5") with 0x35.
  change (ch "6") with 0x36. change (ch "7") with 0x37.
  change (ch "8") with 0x38. change (ch "9") with 0x39.
  destruct (decide (0x660 <= c <= 0x669)) as [Hc|Hc].
  - assert (c = 0x660 \/ c = 0x661 \/ c = 0x662 \/ c = 0x663 \/ c = 0x664
            \/ c = 0x665 \/ c = 0x666 \/ c = 0x667 \/ c = 0x668 \/ c = 0x669)
      as Hcases by lia.
    repeat (destruct Hcases as [-> | Hcases]; [reflexivity |]).
    by subst c.
  - replace ((0x660 <=? c) && (c <=? 0x669)) with false
      by (symmetry; apply andb_false_iff; rewrite N.leb_gt, N.leb_gt; lia).
    repeat match goal with
           | |- context [c =? ?k] =>
               replace (c =? k) with false
                 by (symmetry; apply N.eqb_neq; lia)
           end.
    done.
Qed.

Lemma decimal_value_western c :
  cls_page_digit c = true ->
  decimal_value (to_western c) = Some (mixed_digit_value c).
Proof.
  unfold cls_page_digit, to_western, mixed_digit_value. intros H.
  apply orb_true_iff in H as [H|H]; apply andb_true_iff in H as [H1 H2];
    apply N.leb_le in H1; apply N.leb_le in H2.
  - replace ((0x660 <=? c) && (c <=? 0x669)) with false
      by (symmetry; apply andb_false_iff; rewrite N.leb_gt; lia).
    replace (c <? 0x660) with true by (symmetry; apply N.ltb_lt; lia).
    unfold decimal_value, decimal_blocks. cbn [decimal_in].
    replace ((0x30 <=? c) && (c <? 0x30 + 10)) with true; [done |].
    symmetry. apply andb_true_iff. rewrite N.leb_le, N.ltb_lt. lia.
  - replace ((0x660 <=? c) && (c <=? 0x669)) with true
      by (symmetry; apply andb_true_iff; rewrite !N.leb_le; lia).
    replace (c <? 0x660) with false by (symmetry; apply N.ltb_ge; lia).
    unfold decimal_value, decimal_blocks. cbn [decimal_in].
    replace ((0x30 <=? c - 0x660 + 0x30) && (c - 0x660 + 0x30 <? 0x30 + 10))
      with true
      by (symmetry; apply andb_true_iff; rewrite N.leb_le, N.ltb_lt; lia).
    f_equal. f_equal. lia.
Qed.

Lemma to_western_nonspace c :
  cls_page_digit c = true -> isspace (to_western c) = false.
Proof.
  intros H. pose proof (decimal_value_western c H) as Hd.
  unfold cls_page_digit, to_western in *.
  destruct ((0x660 <=? c) && (c <=? 0x669)) eqn:E.
  - apply andb_true_iff in E as [E1 E2]. apply N.leb_le in E1, E2.
    assert (c = 0x660 \/ c = 0x661 \/ c = 0x662 \/ c = 0x663 \/ c = 0x664
            \/ c = 0x665 \/ c = 0x666 \/ c = 0x667 \/ c = 0x668 \/ c = 0x669)
      as Hcases by lia.
    repeat (destruct Hcases as [-> | Hcases]; [reflexivity |]). by subst c.
  - rewrite orb_false_r in H. apply andb_true_iff in H as [E1 E2].
    apply N.leb_le in E1, E2.
    assert (c = 0x30 \/ c = 0x31 \/ c = 0x32 \/ c = 0x33 \/ c = 0x34
            \/ c = 0x35 \/ c = 0x36 \/ c = 0x37 \/ c = 0x38 \/ c = 0x39)
      as Hcases by lia.
    repeat (destruct Hcases as [-> | Hcases]; [reflexivity |]). by subst c.
Qed.

Lemma int_digits_western ds : forall acc b,
  Forall (fun c => cls_page_digit c = true) ds ->
  ds <> [] \/ b = true ->
  int_digits acc b (to_western <$> ds)
  = Some (foldl (fun a c => (10 * a + mixed_digit_value c)%Z) acc ds).
Proof.
  induction ds as [|c ds IH]; intros acc b Hds Hb.
  - destruct Hb as [? | ->]; done.
  - apply Forall_cons in Hds as [Hc Hds]. cbn [fmap list_fmap int_digits foldl].
    change (list_fmap _ _ to_western ds) with (to_western <$> ds).
    rewrite (decimal_value_western c Hc). apply IH; auto.
Qed.

Lemma page_digit_decimal c :
  cls_page_digit c = true -> is_decimal (to_western c) = true.
Proof.
  intros H. unfold is_decimal. by rewrite (decimal_value_western c H).
Qed.

(** [int()] of a run of page digits: their value, unless they are more
    than [int_max_str_digits]. *)
Lemma py_int_page_digits ds :
  ds <> [] -> Forall (fun c => cls_page_digit c = true) ds ->
  py_int (convert_arabic_hindi_digits ds)
  = if N.of_nat (length ds) <=? int_max_str_digits
    then Some (mixed_value ds) else None.
Proof.
  intros Hne Hds. rewrite convert_arabic_hindi_digits_map.
  rewrite py_int_digits.
  - rewrite length_fmap. destruct (_ <=? _); [| done].
    unfold mixed_value. by rewrite (int_digits_western ds 0 false Hds) by auto.
  - by destruct ds.
  - apply Forall_fmap. eapply Forall_impl; [exact Hds |].
    intros c Hc. by apply page_digit_decimal.
  - apply Forall_fmap. eapply Forall_impl; [exact Hds |].
    intros c Hc. by apply to_western_nonspace.
Qed.

(** ** C7: the printed page number *)

Lemma printed_page_pattern_group txt g :
  matches printed_page_pattern txt g ->
  exists ds, g = Some ds /\ ds <> []
             /\ Forall (fun c => cls_page_digit c = true) ds.
Proof.
  unfold printed_page_pattern. intros H.
  repeat match goal with
         | H : matches (_ :: _) _ _ |- _ => inversion H; clear H; subst
         | H : matches [] _ _ |- _ => inversion H; clear H; subst
         end.
  simpl in *.
  match goal with
  | H : quant_ok cls_page_digit Plus ?t |- _ => inversion H; subst; eauto
  end.
Qed.

Lemma page_digit_cases c :
  cls_page_digit c = true ->
  In c [0x30; 0x31; 0x32; 0x33; 0x34; 0x35; 0x36; 0x37; 0x38; 0x39;
        0x660; 0x661; 0x662; 0x663; 0x664; 0x665; 0x666; 0x667; 0x668; 0x669].
Proof.
  unfold cls_page_digit. intros H.
  apply orb_true_iff in H as [H|H]; apply andb_true_iff in H as [H1 H2];
    apply N.leb_le in H1; apply N.leb_le in H2; simpl.
  - assert (c = 0x30 \/ c = 0x31 \/ c = 0x32 \/ c = 0x33 \/ c = 0x34
            \/ c = 0x35 \/ c = 0x36 \/ c = 0x37 \/ c = 0x38 \/ c = 0x39)
      as Hc by lia.
    intuition.
  - assert (c = 0x660 \/ c = 0x661 \/ c = 0x662 \/ c = 0x663 \/ c = 0x664
            \/ c = 0x665 \/ c = 0x666 \/ c = 0x667 \/ c = 0x668 \/ c = 0x669)
      as Hc by lia.
    intuition.
Qed.

Lemma page_digit_not_space_colon c :
  cls_page_digit c = true -> cls_space c = false /\ cls_colon c = false.
Proof.
  intros H%page_digit_cases. simpl in H.
  repeat (destruct H as [<- | H]; [by vm_compute |]). done.
Qed.

(** A maximal run of a class at the head of a string is determined. *)
Lemma run_unique (cls : char -> bool) ds : forall ds' rest rest',
  Forall (fun c => cls c = true) ds -> Forall (fun c => cls c = true) ds' ->
  not_followed_by cls rest -> not_followed_by cls rest' ->
  ds ++ rest = ds' ++ rest' -> ds = ds'.
Proof.
  induction ds as [|c ds IH]; intros ds' rest rest' Hd Hd' Hr Hr' E.
  - destruct ds' as [|c' ds']; [done |]. simpl in E. subst rest.
    apply Forall_cons in Hd' as [Hc' _]. simpl in Hr. congruence.
  - apply Forall_cons in Hd as [Hc Hd]. destruct ds' as [|c' ds'].
    + simpl in E. subst rest'. simpl in Hr'. congruence.
    + injection E as <- E. apply Forall_cons in Hd' as [_ Hd'].
      f_equal. by apply (IH ds' rest rest').
Qed.

Lemma digit_run_unique (cls : char -> bool) P : forall P' ds ds' rest rest',
  Forall (fun c => cls c = false) P -> Forall (fun c => cls c = false) P' ->
  ds <> [] -> ds' <> [] ->
  Forall (fun c => cls c = true) ds -> Forall (fun c => cls c = true) ds' ->
  not_followed_by cls rest -> not_followed_by cls rest' ->
  P ++ ds ++ rest = P' ++ ds' ++ rest' -> ds = ds'.
Proof.
  induction P as [|x P IH]; intros P' ds ds' rest rest' HP HP' Hne Hne' Hd Hd' Hr Hr' E.
  - destruct P' as [|x' P'].
    + by apply (run_unique cls ds ds' rest rest').
    + destruct ds as [|c ds]; [done |]. injection E as -> _.
      apply Forall_cons in HP' as [Hx _]. apply Forall_cons in Hd as [Hc _].
      congruence.
  - destruct P' as [|x' P'].
    + destruct ds' as [|c ds']; [done |]. injection E as -> _.
      apply Forall_cons in HP as [Hx _]. apply Forall_cons in Hd' as [Hc _].
      congruence.
    + injection E as _ E. apply Forall_cons in HP as [_ HP].
      apply Forall_cons in HP' as [_ HP'].
      by apply (IH P' ds ds' rest rest').
Qed.

(** Two matches of the page pattern that start at the same place and
    take all the digits they can capture the same digits. *)
Lemma printed_page_pattern_unique txt txt' ds ds' rest rest' :
  matches printed_page_pattern txt (Some ds) ->
  matches printed_page_pattern txt' (Some ds') ->
  not_followed_by cls_page_digit rest -> not_followed_by cls_page_digit rest' ->
  txt ++ rest = txt' ++ rest' -> ds = ds'.
Proof.
  unfold printed_page_pattern. intros H H' Hr Hr' E.
  repeat match goal with
         | H : matches (_ :: _) _ _ |- _ => inversion H; clear H; subst
         | H : matches [] _ _ |- _ => inversion H; clear H; subst
         end.
  simpl in *.
  repeat match goal with
         | H : Some _ = Some _ |- _ => injection H as H; subst
         end.
  repeat match goal with
         | H : quant_ok _ One _ |- _ => inversion H; clear H; subst
         | H : quant_ok _ Plus _ |- _ => inversion H; clear H; subst
         | H : quant_ok _ Star _ |- _ => inversion H; clear H; subst
         end.
  simpl in E. injection E as _ E. rewrite !app_nil_r in E.
  assert (forall w1 col w2,
            Forall (fun c => cls_space c = true) w1 ->
            quant_ok cls_colon Opt col ->
            Forall (fun c => cls_space c = true) w2 ->
            Forall (fun c => cls_page_digit c = false) (w1 ++ col ++ w2)) as HP.
  { clear. intros w1 col w2 Hw1 Hcol Hw2.
    assert (forall c, cls_space c = true \/ cls_colon c = true ->
                      cls_page_digit c = false) as Hno.
    { intros c Hc. destruct (cls_page_digit c) eqn:Ed; [| done].
      apply page_digit_not_space_colon in Ed as [? ?].
      destruct Hc; congruence. }
    rewrite !Forall_app. repeat split.
    - eapply Forall_impl; [exact Hw1 |]. intros; apply Hno; by left.
    - inversion Hcol; subst; repeat constructor. apply Hno. by right.
    - eapply Forall_impl; [exact Hw2 |]. intros; apply Hno; by left. }
  match goal with
  | E : (?w1 ++ ?col ++ ?w2 ++ ds) ++ rest
        = (?w1' ++ ?col' ++ ?w2' ++ ds') ++ rest' |- _ =>
      apply (digit_run_unique cls_page_digit (w1 ++ col ++ w2) (w1' ++ col' ++ w2')
               ds ds' rest rest'); auto;
      rewrite <- !app_assoc; rewrite <- !app_assoc in E; exact E
  end.
Qed.

(** Two leftmost matches start at the same place. *)
Lemma leftmost_unique p (title pre txt rest pre' txt' rest' : pystr) g g' :
  title = pre ++ txt ++ rest -> matches p txt g ->
  (forall pre1 pre2, pre = pre1 ++ pre2 -> pre2 <> [] ->
     forall txt0 g0 rest0, pre2 ++ txt ++ rest = txt0 ++ rest0 ->
       ~ matches p txt0 g0) ->
  title = pre' ++ txt' ++ rest' -> matches p txt' g' ->
  (forall pre1 pre2, pre' = pre1 ++ pre2 -> pre2 <> [] ->
     forall txt0 g0 rest0, pre2 ++ txt' ++ rest' = txt0 ++ rest0 ->
       ~ matches p txt0 g0) ->
  pre = pre' /\ txt ++ rest = txt' ++ rest'.
Proof.
  intros E Hm Hleft E' Hm' Hleft'. subst title.
  assert (forall (a b x y : pystr),
            a ++ x = b ++ y -> (length a <= length b)%nat ->
            exists c, b = a ++ c /\ x = c ++ y) as Hsplit.
  { induction a as [|h a IH]; intros b x y Hab Hlen; [by exists b |].
    destruct b as [|h' b]; [simpl in Hlen; lia |].
    injection Hab as <- Hab. destruct (IH b x y Hab) as (c & -> & ->).
    { simpl in Hlen. lia. }
    by exists c. }
  destruct (decide (length pre <= length pre')%nat) as [Hle|Hgt].
  - destruct (Hsplit _ _ _ _ E' Hle) as (c & -> & Hx).
    destruct c as [|h c].
    + rewrite app_nil_r. by rewrite app_nil_r in E'; apply app_inv_head in E'.
    + exfalso. by apply (Hleft' pre (h :: c) eq_refl ltac:(done) txt g rest).
  - symmetry in E'. destruct (Hsplit _ _ _ _ E' ltac:(lia)) as (c & -> & Hx).
    destruct c as [|h c].
    + rewrite app_nil_r in *. by apply app_inv_head in E'.
    + exfalso. by apply (Hleft pre' (h :: c) eq_refl ltac:(done) txt' g' rest').
Qed.

(** C7, as stated, fails for a run of more than 4300 digits: the title
    holds a match of the page pattern, but [int()] refuses its digits
    and the function gives [None]. *)
Lemma printed_page_number_over_limit :
  let digits := replicate 4301 (ch "1") in
  let title_text := u "ص: " ++ digits in
  matches printed_page_pattern title_text (Some digits) /\
  extract_printed_page_number (Soup (Some title_text)) = Ok None.
Proof.
  intros digits title_text. split; [| by vm_compute].
  change title_text
    with ([ch "ص"] ++ [] ++ [0x3A] ++ [0x20] ++ digits ++ []).
  unfold printed_page_pattern.
  apply (matches_cons (Atom cls_sad_sin One false)); [by constructor |].
  apply (matches_cons (Atom cls_space Star false)); [by constructor |].
  apply (matches_cons (Atom cls_colon Opt false)); [by constructor |].
  apply (matches_cons (Atom cls_space Star false));
    [constructor; by repeat constructor |].
  apply (matches_cons (Atom cls_page_digit Plus true) [] digits [] None);
    [| constructor].
  constructor; [done |]. apply Forall_forall.
  by intros c [-> _]%elem_of_replicate.
Qed.

(** C7, amended: on a parsed page the function never raises; when it
    returns a number, the title holds a match of the page pattern with
    no match starting further left, the digits of the match are at most
    4300 and not followed by another digit, and the number is the value
    of these digits with the Arabic-Indic ones read as their western
    counterparts; it returns [None] exactly when the pattern matches
    nowhere in the title or the leftmost match captures more than 4300
    digits.  The digits ["٤٢٣"] convert to 423 and the title ["ص:١٢3"]
    gives 123. *)
Theorem extract_printed_page_number_spec (title_tag : option pystr) :
  let title_text := default [] title_tag in
  (exists r, extract_printed_page_number (Soup title_tag) = Ok r) /\
  (forall n,
     extract_printed_page_number (Soup title_tag) = Ok (Some n) ->
     exists pre txt ds rest,
       title_text = pre ++ txt ++ rest /\
       matches printed_page_pattern txt (Some ds) /\
       not_followed_by cls_page_digit rest /\
       (length ds <= 4300)%nat /\
       n = mixed_value ds /\
       forall pre1 pre2, pre = pre1 ++ pre2 -> pre2 <> [] ->
         forall txt' g' rest', pre2 ++ txt ++ rest = txt' ++ rest' ->
           ~ matches printed_page_pattern txt' g') /\
  (extract_printed_page_number (Soup title_tag) = Ok None <->
   no_match printed_page_pattern title_text
   \/ exists pre txt ds rest,
        title_text = pre ++ txt ++ rest /\
        matches printed_page_pattern txt (Some ds) /\
        not_followed_by cls_page_digit rest /\
        (4300 < length ds)%nat /\
        forall pre1 pre2, pre = pre1 ++ pre2 -> pre2 <> [] ->
          forall txt' g' rest', pre2 ++ txt ++ rest = txt' ++ rest' ->
            ~ matches printed_page_pattern txt' g') /\
  py_int (convert_arabic_hindi_digits (u "٤٢٣")) = Some 423%Z /\
  extract_printed_page_number (Soup (Some (u "ص:١٢3"))) = Ok (Some 123%Z).
Proof.
  intros title_text.
  (* what the search finds, if anything *)
  assert (match re_search printed_page_pattern title_text with
          | Some m =>
              exists pre ds,
                title_text = pre ++ m_text m ++ m_rest m /\
                m_group m = Some ds /\
                matches printed_page_pattern (m_text m) (Some ds) /\
                not_followed_by cls_page_digit (m_rest m) /\
                ds <> [] /\ Forall (fun c => cls_page_digit c = true) ds /\
                forall pre1 pre2, pre = pre1 ++ pre2 -> pre2 <> [] ->
                  forall txt' g' rest',
                    pre2 ++ m_text m ++ m_rest m = txt' ++ rest' ->
                    ~ matches printed_page_pattern txt' g'
          | None => no_match printed_page_pattern title_text
          end) as Hsearch.
  { destruct (re_search printed_page_pattern title_text) as [m|] eqn:Es;
      [| by apply re_search_no_match].
    apply re_search_Some in Es as (pre & E & Hm & Hleft).
    pose proof (match_atoms_last_plus cls_page_digit true
                  [ Atom cls_sad_sin One false; Atom cls_space Star false;
                    Atom cls_colon Opt false; Atom cls_space Star false ]
                  _ _ Hm) as Hrest.
    pose proof (match_atoms_sound _ _ _ Hm) as [_ Hmt].
    destruct (printed_page_pattern_group _ _ Hmt) as (ds & Hg & Hne & Hds).
    rewrite Hg in Hmt. exists pre, ds. repeat split; auto.
    intros pre1 pre2 E1 Hne2 txt' g' rest' E2 Hm'.
    specialize (Hleft pre1 pre2 E1 Hne2). rewrite E2 in Hleft.
    destruct (match_atoms_complete _ _ _ rest' Hm') as [x Hx]. congruence. }
  assert (extract_printed_page_number (Soup title_tag)
          = Ok match re_search printed_page_pattern title_text with
               | Some m =>
                   match m_group m with
                   | Some ds => py_int (convert_arabic_hindi_digits ds)
                   | None => None
                   end
               | None => None
               end) as Hdef.
  { simpl. fold title_text. unfold printed_page_of_title.
    destruct title_text as [|c0 t0]; [done | done]. }
  split; [eauto |]. split; [| split; [| done]].
  - intros n H. rewrite Hdef in H. injection H as H.
    destruct (re_search printed_page_pattern title_text) as [m|]; [| done].
    destruct Hsearch as (pre & ds & E & Hg & Hm & Hr & Hne & Hds & Hleft).
    rewrite Hg in H. rewrite py_int_page_digits in H by done.
    change int_max_str_digits with 4300 in H.
    destruct (N.leb_spec (N.of_nat (length ds)) 4300) as [Hlen|Hlen]; [| done].
    injection H as <-. exists pre, (m_text m), ds, (m_rest m).
    repeat split; auto. lia.
  - rewrite Hdef. split.
    + intros H. injection H as H.
      destruct (re_search printed_page_pattern title_text) as [m|]; [| by left].
      destruct Hsearch as (pre & ds & E & Hg & Hm & Hr & Hne & Hds & Hleft).
      rewrite Hg in H. rewrite py_int_page_digits in H by done.
      change int_max_str_digits with 4300 in H.
      destruct (N.leb_spec (N.of_nat (length ds)) 4300) as [Hlen|Hlen]; [done |].
      right. exists pre, (m_text m), ds, (m_rest m). repeat split; auto. lia.
    + intros [Hno | (pre & txt & ds & rest & E & Hm & Hr & Hlen & Hleft)].
      * apply re_search_no_match in Hno. by rewrite Hno.
      * destruct (re_search printed_page_pattern title_text) as [m|]; [| done].
        destruct Hsearch as (pre0 & ds0 & E0 & Hg0 & Hm0 & Hr0 & Hne0 & Hds0 & Hleft0).
        destruct (leftmost_unique _ _ _ _ _ _ _ _ _ _ E Hm Hleft E0 Hm0 Hleft0)
          as [_ Eq].
        pose proof (printed_page_pattern_unique _ _ _ _ _ _ Hm Hm0 Hr Hr0 Eq) as <-.
        rewrite Hg0, py_int_page_digits by done.
        change int_max_str_digits with 4300.
        destruct (N.leb_spec (N.of_nat (length ds)) 4300) as [Hlen'|Hlen'];
          [lia | done].
Qed.

Lemma extract_printed_page_number_spec_witness :
  exists pre txt ds rest,
    u "كتاب - ص: 12" = pre ++ txt ++ rest /\
    matches printed_page_pattern txt (Some ds) /\
    12%Z = mixed_value ds.
Proof.
  destruct (extract_printed_page_number_spec (Some (u "كتاب - ص: 12")))
    as (_ & H & _).
  destruct (H 12%Z eq_refl) as (pre & txt & ds & rest & E & Hm & _ & _ & Hv & _).
  exists pre, txt, ds, rest. done.
Defined.

(** ** C10: cleaning of text *)

Lemma rstrip_idem s : rstrip (rstrip s) = rstrip s.
Proof.
  induction s as [|c s IH]; [done |]. simpl.
  destruct (rstrip s) as [|d r] eqn:E.
  - destruct (isspace c) eqn:Hc; [done |]. simpl. by rewrite Hc.
  - change (rstrip (c :: d :: r)) with
      (match rstrip (d :: r) with
       | [] => if isspace c then [] else [c]
       | r' => c :: r'
       end).
    rewrite IH. done.
Qed.

Lemma lstrip_head s : match lstrip s with c :: _ => isspace c = false | [] => True end.
Proof.
  induction s as [|c s IH]; [done |]. simpl.
  destruct (isspace c) eqn:Hc; [exact IH | exact Hc].
Qed.

Lemma strip_idem s : strip (strip s) = strip s.
Proof.
  unfold strip. pose proof (lstrip_head s) as Hh.
  destruct (lstrip s) as [|c r]; [done |].
  rewrite rstrip_cons_nonspace by done.
  rewrite lstrip_cons_nonspace by done.
  rewrite <- rstrip_cons_nonspace by done. apply rstrip_idem.
Qed.

Lemma elem_of_rstrip_inv c s : c ∈ rstrip s -> c ∈ s.
Proof.
  induction s as [|d s IH]; [done |]. simpl.
  destruct (rstrip s) as [|e r].
  - destruct (isspace d); [by intros ?%elem_of_nil |].
    intros ->%list_elem_of_singleton. left.
  - intros [->|H]%elem_of_cons; [left | right; auto].
Qed.

Lemma elem_of_lstrip_inv c s : c ∈ lstrip s -> c ∈ s.
Proof.
  induction s as [|d s IH]; [done |]. simpl.
  destruct (isspace d); [right; auto | done].
Qed.

Lemma elem_of_strip_inv c s : c ∈ strip s -> c ∈ s.
Proof. intros H. by apply elem_of_lstrip_inv, elem_of_rstrip_inv. Qed.

Lemma elem_of_replace1_nil c old s :
  c ∈ replace1 old [] s -> c ∈ s /\ c <> old.
Proof.
  unfold replace1. induction s as [|d s IH]; simpl; [by intros ?%elem_of_nil |].
  destruct (d =? old) eqn:E; simpl.
  - intros H. destruct (IH H). split; [by right | done].
  - intros [->|H]%elem_of_cons.
    + split; [left | by apply N.eqb_neq].
    + destruct (IH H). split; [by right | done].
Qed.

Lemma elem_of_sub_runs cls repl c s : forall b,
  c ∈ sub_runs cls repl b s -> c ∈ repl \/ (c ∈ s /\ cls c = false).
Proof.
  induction s as [|d s IH]; intros b; simpl; [by intros ?%elem_of_nil |].
  destruct (cls d) eqn:Hd.
  - destruct b.
    + intros H. destruct (IH _ H) as [?|[? ?]]; [by left | right].
      split; [by right | done].
    + intros [H|H]%elem_of_app; [by left |].
      destruct (IH _ H) as [?|[? ?]]; [by left | right].
      split; [by right | done].
  - intros [->|H]%elem_of_cons.
    + right. split; [left | done].
    + destruct (IH _ H) as [?|[? ?]]; [by left | right].
      split; [by right | done].
Qed.

(** What does hold of [clean_text]: it maps the empty string to itself,
    its result has no whitespace at either end, and no carriage return,
    newline, tab or zero-width joiner anywhere. *)
Lemma clean_text_normal s :
  clean_text [] = [] /\
  strip (clean_text s) = clean_text s /\
  Forall (fun c => c <> 0x0D /\ c <> 0x0A /\ c <> 0x09
                   /\ c <> 0x200C /\ c <> 0x200D) (clean_text s).
Proof.
  split; [done |]. split.
  - destruct s; [done |]. unfold clean_text. apply strip_idem.
  - apply Forall_forall. intros c Hc. destruct s as [|c0 s]; [by apply elem_of_nil in Hc |].
    unfold clean_text in Hc.
    apply elem_of_strip_inv in Hc.
    apply elem_of_replace1_nil in Hc as [Hc H200D].
    apply elem_of_replace1_nil in Hc as [Hc H200C].
    apply elem_of_sub_runs in Hc as [Hc|[Hc Hrnt]].
    { apply list_elem_of_singleton in Hc. subst c. repeat split; discriminate. }
    apply elem_of_sub_runs in Hc as [Hc|[Hc Hsp]].
    { apply list_elem_of_singleton in Hc. subst c. repeat split; discriminate. }
    repeat split; auto; intros ->; discriminate.
Qed.

(** C10 at the input ["a ‌ b"] with a zero-width non-joiner between the
    two spaces: whitespace is collapsed before the joiner is removed, so
    the result keeps two adjacent spaces, and cleaning it again changes
    it. *)
Theorem clean_text_zero_width_gap :
  let s := u "a " ++ [0x200C] ++ u " b" in
  clean_text s = u "a  b" /\
  clean_text (clean_text s) = u "a b" /\
  clean_text (clean_text s) <> clean_text s.
Proof. vm_compute. repeat split; discriminate. Qed.

(** ** C6: the title of the book *)

Lemma title_loop_rule select_one selectors : forall title,
  title_loop select_one selectors title =
  match find (fun t => (3 <? length t)%nat) (cleaned_titles select_one selectors) with
  | Some t => t
  | None => default title (last (cleaned_titles select_one selectors))
  end.
Proof.
  unfold cleaned_titles.
  induction selectors as [|selector rest IH]; intros title; [done |].
  simpl. destruct (select_one selector) as [element_text|]; simpl.
  - destruct (3 <? length (clean_text element_text))%nat; [done |].
    rewrite IH.
    destruct (find _ _); [done |].
    rewrite last_cons. by destruct (last _).
  - apply IH.
Qed.

(** C6, as stated, fails: a page whose only title candidate cleans to
    three characters gets that title, and no error is raised. *)
Lemma extract_title_short :
  let select_one := fun selector : string =>
    if String.eqb selector "title" then Some (u " abc ") else None in
  extract_title select_one = Ok (u "abc") /\ length (u "abc") = 3%nat.
Proof. vm_compute. done. Qed.

(** C6, amended: the selectors are tried in the order [h1.book-title],
    [h1], [.book-title], [title]; the title is the first cleaned text
    longer than three characters; when there is none, it is the cleaned
    text of the last selector that selects an element, and the
    extraction fails exactly when that text is empty or no selector
    selects anything. *)
Theorem extract_title_rule (select_one : string -> option pystr) :
  title_selectors
  = [ "h1.book-title"%string; "h1"%string; ".book-title"%string;
      "title"%string ] /\
  extract_title select_one = title_rule select_one /\
  (forall t, extract_title select_one = Ok t -> t <> []) /\
  (forall t, In t (cleaned_titles select_one title_selectors) ->
     (3 < length t)%nat ->
     exists t', extract_title select_one = Ok t' /\ (3 < length t')%nat).
Proof.
  split; [done |].
  assert (Hrule : extract_title select_one = title_rule select_one).
  { unfold extract_title, title_rule. rewrite title_loop_rule.
    destruct (find _ _) as [t|] eqn:Ef.
    - apply find_some in Ef as [_ Hl]. destruct t; [done | done].
    - destruct (last _) as [[|c r]|]; done. }
  split; [exact Hrule |]. split.
  - intros t H Ht. subst t. unfold extract_title in H.
    by destruct (title_loop _ _ _).
  - intros t Hin Hl. rewrite Hrule. unfold title_rule.
    destruct (find _ _) as [t'|] eqn:Ef.
    + exists t'. split; [done |]. apply find_some in Ef as [_ Hl'].
      by apply Nat.ltb_lt.
    + exfalso. eapply find_none in Ef; [| exact Hin]. simpl in Ef.
      apply Nat.ltb_ge in Ef. lia.
Qed.

Lemma extract_title_rule_witness :
  let select_one := fun selector : string =>
    if String.eqb selector "h1" then Some (u "كتاب التوحيد")
    else if String.eqb selector "title" then Some (u "abc") else None in
  exists t', extract_title select_one = Ok t' /\ (3 < length t')%nat.
Proof.
  intros select_one.
  destruct (extract_title_rule select_one) as (_ & _ & _ & H).
  apply (H (u "كتاب التوحيد")).
  - vm_compute. auto.
  - vm_compute. lia.
Defined.

(** ** C1: the two numbers of a page *)

(** The record built from a fetched page. *)
Lemma extract_enhanced_page_content_fetched env config book_id n has_orig pc :
  skip_existing config = false \/ cache_get env book_id n = None ->
  extract_enhanced_page_content env config book_id n has_orig = Ok pc ->
  exists normalized_id soup,
    normalize_book_id book_id = Ok normalized_id /\
    get_soup env normalized_id n = Ok soup /\
    let printed :=
      if has_orig then printed_page_of_title (default [] (title_tag soup))
      else None in
    content pc = strip (sub_newlines3 0 (body_text soup)) /\
    internal_index pc = Some n /\
    page_index_internal pc = Some n /\
    original_page_number pc = printed /\
    page_number pc = default n printed /\
    printed_missing pc
    = (if has_orig then match printed with Some _ => false | None => true end
       else false).
Proof.
  intros Hcache H. unfold extract_enhanced_page_content in H.
  destruct (normalize_book_id book_id) as [normalized_id|] eqn:En; [| discriminate].
  simpl in H.
  assert ((if skip_existing config then cache_get env book_id n else None) = None)
    as Hmiss.
  { destruct Hcache as [-> | ->]; [done | by destruct (skip_existing config)]. }
  rewrite Hmiss in H.
  destruct (get_soup env normalized_id n) as [soup|] eqn:Es; [| discriminate].
  simpl in H. exists normalized_id, soup. split; [done |]. split; [done |].
  destruct has_orig; simpl in H.
  - destruct (printed_page_of_title (default [] (title_tag soup)));
      injection H as <-; simpl; done.
  - injection H as <-. simpl. done.
Qed.

(** C1, as stated, fails in its second form: with original pagination
    and a printed number that equals the internal index, the page number
    equals the internal index although the printed number was found. *)
Lemma page_number_printed_equals_internal :
  exists pc,
    extract_enhanced_page_content printed_equals_internal sequential_config
      (u "43") 12 true = Ok pc /\
    page_number pc = 12%Z /\ internal_index pc = Some 12%Z /\
    printed_missing pc = false /\
    ~ (page_number pc = 12%Z <-> true = false \/ printed_missing pc = true).
Proof.
  eexists. split; [vm_compute; reflexivity |]. simpl.
  repeat split; try done. intros [H _]. destruct (H eq_refl); discriminate.
Qed.

(** C1, amended: for a page that is fetched, the internal index is the
    requested page; without original pagination the page number is the
    internal index; with it, the page number is the printed number when
    the title gives one, and then nothing is marked missing, else it is
    the internal index and the printed number is marked missing.  The
    page number equals the internal index exactly when there is no
    original pagination, or the printed number is missing, or the
    printed number is that same index. *)
Theorem extract_enhanced_page_content_numbering
    env config book_id n has_orig pc :
  skip_existing config = false \/ cache_get env book_id n = None ->
  extract_enhanced_page_content env config book_id n has_orig = Ok pc ->
  internal_index pc = Some n /\
  (has_orig = false ->
     page_number pc = n /\ printed_missing pc = false
     /\ original_page_number pc = None) /\
  (has_orig = true ->
     match original_page_number pc with
     | Some printed => page_number pc = printed /\ printed_missing pc = false
     | None => page_number pc = n /\ printed_missing pc = true
     end) /\
  (exists normalized_id soup,
     normalize_book_id book_id = Ok normalized_id /\
     get_soup env normalized_id n = Ok soup /\
     original_page_number pc
     = if has_orig then printed_page_of_title (default [] (title_tag soup))
       else None) /\
  (page_number pc = n <->
   has_orig = false \/ printed_missing pc = true
   \/ original_page_number pc = Some n).
Proof.
  intros Hcache H.
  destruct (extract_enhanced_page_content_fetched _ _ _ _ _ _ Hcache H)
    as (normalized_id & soup & Hn & Hs & _ & Hi & _ & Ho & Hp & Hm).
  split; [done |]. rewrite Ho, Hp, Hm.
  split; [| split; [| split]].
  - by intros ->.
  - intros ->. by destruct (printed_page_of_title _).
  - eauto.
  - destruct has_orig; [| tauto].
    destruct (printed_page_of_title _) as [printed|]; simpl.
    + split; [intros ->; auto |].
      intros [?|[?|[= ->]]]; done.
    + tauto.
Qed.

Lemma extract_enhanced_page_content_numbering_witness :
  exists pc,
    extract_enhanced_page_content printed_backwards sequential_config
      (u "43") 1 true = Ok pc /\
    internal_index pc = Some 1%Z /\ page_number pc = 5%Z
    /\ printed_missing pc = false.
Proof.
  eexists. split; [vm_compute; reflexivity |].
  destruct (extract_enhanced_page_content_numbering printed_backwards
              sequential_config (u "43") 1 true _
              (or_intror eq_refl) eq_refl) as (Hi & _ & Ht & _).
  specialize (Ht eq_refl). simpl in Ht. destruct Ht. split; [exact Hi | done].
Defined.

(** ** More on what a pattern matches *)





(** ** Substrings *)




Lemma startswith_contains p s : startswith p s = true -> contains p s = true.
Proof. intros H. destruct s; simpl; by rewrite H. Qed.


(** ** Decimal digits *)

Lemma decimal_in_range blocks c d :
  decimal_in blocks c = Some d -> (0 <= d <= 9)%Z.
Proof.
  induction blocks as [|b blocks IH]; simpl; [done |].
  destruct ((b <=? c) && (c <? b + 10)) eqn:E; [| exact IH].
  apply andb_true_iff in E as [E1 E2].
  apply N.leb_le in E1. apply N.ltb_lt in E2. intros [= <-]. lia.
Qed.

Lemma isspace_cases c :
  isspace c = true ->
  In c [ 0x09; 0x0A; 0x0B; 0x0C; 0x0D; 0x1C; 0x1D; 0x1E; 0x1F; 0x20; 0x85;
         0xA0; 0x1680; 0x2000; 0x2001; 0x2002; 0x2003; 0x2004; 0x2005;
         0x2006; 0x2007; 0x2008; 0x2009; 0x200A; 0x2028; 0x2029; 0x202F;
         0x205F; 0x3000 ].
Proof.
  unfold isspace, in_ranges, whitespace_table. cbn [existsb fst snd].
  rewrite !orb_true_iff, !andb_true_iff, !N.leb_le. simpl. lia.
Qed.

Lemma decimal_nonspace c : is_decimal c = true -> isspace c = false.
Proof.
  intros Hd. destruct (isspace c) eqn:Hs; [exfalso | done].
  apply isspace_cases in Hs. simpl in Hs.
  repeat (destruct Hs as [<- | Hs]; [by vm_compute in Hd |]). done.
Qed.

Lemma int_digits_decimal ds : forall acc b,
  Forall (fun c => is_decimal c = true) ds ->
  ds <> [] \/ b = true -> (0 <= acc)%Z ->
  exists n, int_digits acc b ds = Some n
            /\ (acc * 10 ^ Z.of_nat (length ds) <= n
                < (acc + 1) * 10 ^ Z.of_nat (length ds))%Z.
Proof.
  induction ds as [|c ds IH]; intros acc b Hds Hb Hacc.
  - destruct Hb as [? | ->]; [done |]. exists acc. simpl. split; [done | lia].
  - apply Forall_cons in Hds as [Hc Hds]. cbn [int_digits].
    unfold is_decimal in Hc. destruct (decimal_value c) as [d|] eqn:Ed; [| done].
    apply decimal_in_range in Ed.
    destruct (IH (10 * acc + d)%Z true Hds (or_intror eq_refl)) as (n & Hn & Hr);
      [lia |].
    exists n. split; [done |].
    rewrite length_cons, Nat2Z.inj_succ, Z.pow_succ_r by lia. nia.
Qed.

Lemma py_int_decimal ds :
  ds <> [] -> Forall (fun c => is_decimal c = true) ds ->
  (length ds <= 4300)%nat ->
  exists n, py_int ds = Some n /\ (0 <= n < 10 ^ Z.of_nat (length ds))%Z.
Proof.
  intros Hne Hds Hlen. rewrite py_int_digits; [| done | done |].
  2:{ eapply Forall_impl; [exact Hds |]. apply decimal_nonspace. }
  change int_max_str_digits with 4300.
  destruct (N.leb_spec (N.of_nat (length ds)) 4300) as [_|?]; [| lia].
  destruct (int_digits_decimal ds 0 false Hds) as (n & Hn & Hr); [auto | lia |].
  exists n. split; [done | lia].
Qed.

Lemma py_int_decimal_long ds :
  Forall (fun c => is_decimal c = true) ds ->
  (4300 < length ds)%nat -> py_int ds = None.
Proof.
  intros Hds Hlen.
  rewrite py_int_digits; [| intros ->; simpl in Hlen; lia | done |].
  2:{ eapply Forall_impl; [exact Hds |]. apply decimal_nonspace. }
  change int_max_str_digits with 4300.
  destruct (N.leb_spec (N.of_nat (length ds)) 4300) as [?|_]; [lia | done].
Qed.

(** ** C9: the year in the other calendar *)






Lemma re_search_matches p s m :
  re_search p s = Some m -> matches p (m_text m) (m_group m).
Proof.
  intros H. apply re_search_Some in H as (pre & _ & Hm & _).
  by apply match_atoms_sound in Hm as [_ Hm].
Qed.





(** ** C8: the edition *)

Lemma greedy_total cls s : forall k,
  (forall taken rest, is_Some (k taken rest)) ->
  greedy cls s k
  = k (leading cls s) (drop (length (leading cls s)) s).
Proof.
  induction s as [|c s IH]; intros k Hk; [done |]. simpl.
  destruct (cls c); [| done].
  rewrite IH by (intros; apply Hk). simpl.
  by destruct (Hk (c :: leading cls s) (drop (length (leading cls s)) s)) as [x ->].
Qed.

(** [re.findall(r'\d+', s)[0]] is the first run of digits. *)
Lemma first_digits_first_integer s :
  match re_search [Atom cls_digit Plus false] s with
  | Some m => py_int (m_text m)
  | None => None
  end = first_integer s.
Proof.
  induction s as [|c s IH]; [done |].
  cbn [re_search match_atoms first_integer a_quant a_cls]. unfold cls_digit at 1.
  destruct (is_decimal c) eqn:Hc.
  - rewrite greedy_total by (intros; simpl; eauto). simpl.
    rewrite app_nil_r. by rewrite Hc.
  - exact IH.
Qed.

Lemma matches_no_group p : forall txt g,
  matches p txt g -> Forall (fun a => a_group a = false) p -> g = None.
Proof.
  induction p as [|a p IH]; intros txt g H Hp; inversion H as [|? ? t ts g' Hq Hm]; subst.
  - done.
  - apply Forall_cons in Hp as [-> Hp]. by apply (IH ts).
Qed.

(** The group of a match is the piece of the first atom that has one. *)
Lemma matches_first_group p1 a p2 : forall txt g,
  matches (p1 ++ a :: p2) txt g ->
  Forall (fun x => a_group x = false) p1 -> a_group a = true ->
  exists t, g = Some t /\ quant_ok (a_cls a) (a_quant a) t.
Proof.
  induction p1 as [|x p1 IH]; intros txt g H Hp Ha.
  - inversion H as [|? ? t ts g' Hq Hm]; subst. rewrite Ha. eauto.
  - rewrite <- app_comm_cons in H.
    inversion H as [|? ? t ts g' Hq Hm]; subst.
    apply Forall_cons in Hp as [-> Hp]. by apply (IH ts).
Qed.

(** A literal character of the pattern is in every match. *)
Lemma matches_lit_elem c p : forall txt g,
  matches p txt g -> Exists (fun a => a = Atom (N.eqb c) One false) p ->
  c ∈ txt.
Proof.
  induction p as [|a p IH]; intros txt g H Hp; [by apply Exists_nil in Hp |].
  inversion H as [|? ? t ts g' Hq Hm]; subst.
  apply Exists_cons in Hp as [-> | Hp].
  - simpl in Hq. inversion Hq as [d Hd| | | | |]; subst.
    apply N.eqb_eq in Hd. subst d. left.
  - apply elem_of_app. right. by apply (IH ts g').
Qed.

Lemma re_search_elem p s m c :
  re_search p s = Some m -> c ∈ m_text m -> c ∈ s.
Proof.
  intros H Hc. apply re_search_Some in H as (pre & -> & _).
  rewrite !elem_of_app. auto.
Qed.

Lemma search_patterns_app ps1 ps2 text :
  search_patterns (ps1 ++ ps2) text
  = match search_patterns ps1 text with
    | Some n => Some n
    | None => search_patterns ps2 text
    end.
Proof.
  induction ps1 as [|p ps1 IH]; [done |]. cbn [app search_patterns].
  destruct (re_search p text) as [m|]; [| exact IH].
  destruct (m_group m) as [g|]; [| exact IH].
  destruct (py_int g); [done | exact IH].
Qed.

(** A pattern without a group never decides. *)
Lemma search_patterns_no_group ps text :
  Forall (Forall (fun a => a_group a = false)) ps ->
  search_patterns ps text = None.
Proof.
  induction 1 as [|p ps Hp _ IH]; [done |]. cbn [search_patterns].
  destruct (re_search p text) as [m|] eqn:Es; [| exact IH].
  apply re_search_matches in Es. apply matches_no_group in Es; [| done].
  by rewrite Es.
Qed.

Lemma ordinal_patterns_no_group :
  Forall (Forall (fun a => a_group a = false)) ordinal_patterns.
Proof. repeat constructor. Qed.

Lemma numeral_patterns_group : Forall digit_group_pattern numeral_patterns.
Proof.
  assert (forall p1 p2, Forall (fun x => a_group x = false) p1 ->
            digit_group_pattern (p1 ++ Atom cls_digit Plus true :: p2)) as H.
  { intros p1 p2 Hp txt g Hm.
    destruct (matches_first_group _ _ _ _ _ Hm Hp eq_refl) as (t & -> & Hq).
    inversion Hq; subst. eauto. }
  repeat constructor.
  - apply (H (lit (u "ط") ++ space_star) []). repeat constructor.
  - apply (H (lit (u "الطبعة") ++ space_star) []). repeat constructor.
  - apply (H (lit (u "طبعة") ++ space_star) []). repeat constructor.
  - apply (H [] (space_star ++ lit (u "طبعة"))). constructor.
Qed.

(** The patterns decide in their order; a match whose digits [int()]
    refuses is passed over. *)
Lemma search_patterns_within ps text :
  Forall digit_group_pattern ps ->
  search_patterns ps text = (first_match_within ps text ≫= m_group) ≫= py_int
  /\ forall m, first_match_within ps text = Some m ->
               is_Some (m_group m ≫= py_int).
Proof.
  induction 1 as [|p ps Hp _ IH]; [done |].
  cbn [search_patterns first_match_within].
  destruct (re_search p text) as [m|] eqn:Es; [| exact IH].
  apply re_search_matches in Es.
  destruct (Hp _ _ Es) as (ds & Hg & Hne & Hds).
  rewrite Hg. change (default [] (Some ds)) with ds.
  change int_max_str_digits with 4300.
  destruct (N.leb_spec (N.of_nat (length ds)) 4300) as [Hlen|Hlen].
  - destruct (py_int_decimal ds Hne Hds) as (n & Hn & _); [lia |].
    rewrite Hn. split; [simpl; rewrite Hg; simpl; by rewrite Hn |].
    intros m' [= <-]. rewrite Hg. simpl. by rewrite Hn.
  - rewrite (py_int_decimal_long ds Hds) by lia. exact IH.
Qed.

Lemma numeral_patterns_need_ta text :
  ch "ط" ∉ text -> first_match_within numeral_patterns text = None.
Proof.
  intros Hta.
  assert (forall p, Exists (fun a => a = Atom (N.eqb (ch "ط")) One false) p ->
                    re_search p text = None) as H.
  { intros p Hp. destruct (re_search p text) as [m|] eqn:Es; [exfalso | done].
    apply Hta. eapply re_search_elem; [exact Es |].
    eapply matches_lit_elem; [by eapply re_search_matches | exact Hp]. }
  unfold numeral_patterns. cbn [first_match_within].
  rewrite !H; [done | ..].
  - do 2 apply Exists_cons_tl. by apply Exists_cons_hd.
  - by apply Exists_cons_hd.
  - do 2 apply Exists_cons_tl. by apply Exists_cons_hd.
  - by apply Exists_cons_hd.
Qed.

Lemma search_words_first tbl text : forall i w n,
  tbl !! i = Some (w, n) -> contains w text = true ->
  (forall j w' n', (j < i)%nat -> tbl !! j = Some (w', n') ->
                   contains w' text = false) ->
  search_words tbl text = Some n.
Proof.
  induction tbl as [|[w0 n0] tbl IH]; intros i w n Hi Hw Hfirst; [done |].
  destruct i as [|i]; simpl in *.
  - injection Hi as -> ->. by rewrite Hw.
  - rewrite (Hfirst 0%nat w0 n0) by (done || lia).
    apply (IH i w n); auto. intros j w' n' Hj Hl.
    apply (Hfirst (S j) w' n'); [lia | done].
Qed.

Lemma search_words_none tbl text :
  Forall (fun wn => contains wn.1 text = false) tbl ->
  search_words tbl text = None.
Proof.
  induction 1 as [|[w n] tbl Hw _ IH]; [done |]. simpl in *. by rewrite Hw.
Qed.

(** C8, as stated, fails twice: the part number after [ط] wins over an
    integer that comes first in the string; and a string that holds
    [بدون تاريخ] without beginning with it gives [None] for both fields
    although it names an ordinal. *)
Lemma edition_number_not_first_integer :
  let s := u "5 ط 3" in
  startswith (u "بدون تاريخ") s = false /\
  startswith (u "بدون طبعة") s = false /\
  search_words word_to_number s = None /\
  first_integer s = Some 5%Z /\
  edition_of_string s = (Some s, Some 3%Z) /\
  edition_of_string (u "الأولى بدون تاريخ") = (None, None).
Proof. vm_compute. done. Qed.

(** C8, amended: an edition string that contains [بدون تاريخ] or
    [بدون طبعة] (so also one that begins with it) gives [None] for both
    fields; any other string is kept as the edition text, and its number
    is that of the first word of the table [الأولى] to [العاشرة] (in
    this order, numbered 1 to 10) that the string contains; with none
    of them, the digits captured by the first of the patterns [ط N],
    [الطبعة N], [طبعة N], [N طبعة] that matches with at most 4300
    digits; with none of those (as in every string without the letter
    [ط]), the first integer in the string, if it has at most 4300
    digits.  ["الطبعة الأولى"] gives 1 and ["الطبعة 7"] gives 7. *)
Theorem edition_parsing :
  (forall s,
     contains (u "بدون تاريخ") s = true \/ contains (u "بدون طبعة") s = true
     \/ startswith (u "بدون تاريخ") s = true
     \/ startswith (u "بدون طبعة") s = true ->
     edition_of_string s = (None, None)) /\
  (forall s,
     contains (u "بدون تاريخ") s = false ->
     contains (u "بدون طبعة") s = false ->
     edition_of_string s = (Some s, extract_edition_number s)) /\
  (word_to_number.*2 = seqZ 1 10 /\
   forall s i w n,
     s <> [] -> word_to_number !! i = Some (w, n) ->
     contains w (strip s) = true ->
     (forall j w' n', (j < i)%nat -> word_to_number !! j = Some (w', n') ->
                      contains w' (strip s) = false) ->
     extract_edition_number s = Some n) /\
  (forall s,
     s <> [] ->
     Forall (fun wn => contains wn.1 (strip s) = false) word_to_number ->
     extract_edition_number s
     = match first_match_within numeral_patterns (strip s) with
       | Some m => m_group m ≫= py_int
       | None => first_integer (strip s)
       end /\
     (forall m, first_match_within numeral_patterns (strip s) = Some m ->
                is_Some (m_group m ≫= py_int)) /\
     (ch "ط" ∉ strip s -> extract_edition_number s = first_integer (strip s))) /\
  (forall ds rest,
     ds <> [] -> Forall (fun c => is_decimal c = true) ds ->
     not_followed_by is_decimal rest ->
     first_integer (ds ++ rest)
     = if N.of_nat (length ds) <=? 4300 then py_int ds else None) /\
  edition_of_string (u "الطبعة الأولى") = (Some (u "الطبعة الأولى"), Some 1%Z) /\
  edition_of_string (u "الطبعة 7") = (Some (u "الطبعة 7"), Some 7%Z) /\
  edition_of_string (u "بدون تاريخ") = (None, None).
Proof.
  split; [| split; [| split; [| split; [| split; [| by vm_compute]]]]].
  - intros s H. unfold edition_of_string.
    assert (contains (u "بدون تاريخ") s = true
            \/ contains (u "بدون طبعة") s = true) as [-> | ->].
    { destruct H as [H|[H|[H|H]]]; auto using startswith_contains. }
    + done.
    + by rewrite orb_true_r.
  - intros s H1 H2. unfold edition_of_string. by rewrite H1, H2.
  - split; [by vm_compute |].
    intros s i w n Hs Hi Hw Hfirst. unfold extract_edition_number.
    destruct s as [|c s]; [done |].
    by rewrite (search_words_first _ _ i w n).
  - intros s Hs Hw.
    destruct (search_patterns_within numeral_patterns (strip s)
                numeral_patterns_group) as [Hsearch Hdecides].
    assert (extract_edition_number s
            = match first_match_within numeral_patterns (strip s) with
              | Some m => m_group m ≫= py_int
              | None => first_integer (strip s)
              end) as Heq.
    { unfold extract_edition_number. destruct s as [|c s]; [done |].
      rewrite search_words_none by done.
      unfold edition_number_patterns. rewrite search_patterns_app.
      rewrite search_patterns_no_group by apply ordinal_patterns_no_group.
      rewrite Hsearch.
      destruct (first_match_within numeral_patterns (strip (c :: s)))
        as [m|] eqn:Ef.
      - simpl. by destruct (Hdecides m eq_refl) as [n ->].
      - simpl. apply first_digits_first_integer. }
    split; [exact Heq |]. split; [exact Hdecides |].
    intros Hta. rewrite Heq. by rewrite numeral_patterns_need_ta.
  - intros ds rest Hne Hds Hrest.
    destruct ds as [|c ds]; [done |]. cbn [app first_integer].
    apply Forall_cons in Hds as Hds'. destruct Hds' as [Hc Hds'].
    rewrite Hc.
    assert (forall l, Forall (fun c => is_decimal c = true) l ->
              leading is_decimal (l ++ rest) = l) as Hlead.
    { induction 1 as [|x l Hx _ IH]; simpl.
      - destruct rest as [|r0 rest0]; [done |]. simpl in Hrest. simpl.
        by rewrite Hrest.
      - by rewrite Hx, IH. }
    change (c :: ds ++ rest) with ((c :: ds) ++ rest). rewrite Hlead by done.
    destruct (N.leb_spec (N.of_nat (length (c :: ds))) 4300) as [Hlen|Hlen];
      [done |].
    apply py_int_decimal_long; [done | lia].
Qed.

Lemma edition_parsing_witness :
  edition_of_string (u "بدون طبعة، دار الفكر") = (None, None) /\
  extract_edition_number (u "الطبعة الثالثة 1405") = Some 3%Z /\
  extract_edition_number (u "دار الفكر 1405 - 1985") = Some 1405%Z.
Proof.
  destruct edition_parsing as (H1 & _ & [_ H3] & H4 & _).
  split; [| split].
  - apply H1. do 3 right. reflexivity.
  - apply (H3 _ 2%nat (u "الثالثة")); try reflexivity; [done |].
    intros [|[|j]] w' n' Hj Hl; [| | lia]; injection Hl as <- <-; reflexivity.
  - destruct (H4 (u "دار الفكر 1405 - 1985")) as (_ & _ & H);
      [done | repeat constructor |].
    rewrite H; [reflexivity |].
    vm_compute. intros Hin. apply list_elem_of_In in Hin. simpl in Hin.
    repeat (destruct Hin as [Hin|Hin]; [discriminate |]). done.
Defined.

(** ** Sorting *)

Section Sorting.
Context {A : Type} (leb : A -> A -> bool).
Local Abbreviation R := (fun x y => leb x y = true).

Lemma insert_sorted_perm x l : insert_sorted leb x l ≡ₚ x :: l.
Proof.
  induction l as [|y l IH]; [done |]. simpl.
  destruct (leb x y); [done |]. rewrite IH. apply Permutation_swap.
Qed.

Lemma py_sorted_perm l : py_sorted leb l ≡ₚ l.
Proof.
  induction l as [|x l IH]; [done |]. unfold py_sorted in *. simpl.
  by rewrite insert_sorted_perm, IH.
Qed.

Hypothesis leb_total : forall x y, leb x y = true \/ leb y x = true.

Lemma insert_sorted_Sorted x l :
  Sorted R l -> Sorted R (insert_sorted leb x l).
Proof.
  induction l as [|y l IH]; intros Hl; simpl.
  - repeat constructor.
  - destruct (leb x y) eqn:E.
    + constructor; [done | by constructor].
    + apply Sorted_inv in Hl as [Hl Hy]. constructor; [by apply IH |].
      destruct l as [|z l]; simpl.
      * constructor. by destruct (leb_total x y) as [? | ?]; [congruence |].
      * destruct (leb x z).
        -- constructor. by destruct (leb_total x y) as [? | ?]; [congruence |].
        -- constructor. by apply HdRel_inv in Hy.
Qed.

Lemma py_sorted_Sorted l : Sorted R (py_sorted leb l).
Proof.
  induction l as [|x l IH]; [constructor |].
  unfold py_sorted in *. simpl. by apply insert_sorted_Sorted.
Qed.
End Sorting.

Lemma py_sorted_by_key {A} (key : A -> Z) (l : list A) :
  StronglySorted (fun x y => (key x <= key y)%Z) (py_sorted (key_leb key) l).
Proof.
  apply Sorted_StronglySorted.
  { intros x y z. lia. }
  rewrite <- (list_fmap_id (py_sorted (key_leb key) l)).
  eapply Sorted_fmap; [| apply (py_sorted_Sorted (key_leb key))].
  - intros x y. unfold key_leb. apply Z.leb_le.
  - intros x y. unfold key_leb. rewrite !Z.leb_le. lia.
Qed.

Lemma seqZ_StronglySorted m n : StronglySorted Z.le (seqZ m n).
Proof.
  destruct (decide (0 <= n)%Z) as [Hn|Hn]; [| rewrite seqZ_nil by lia; constructor].
  revert m. pattern n. apply natlike_ind; [| | done].
  - intros m. rewrite seqZ_nil by lia. constructor.
  - intros k Hk IH m. rewrite seqZ_cons by lia.
    replace (Z.pred (Z.succ k)) with k by lia.
    constructor; [apply IH |].
    apply Forall_forall. intros x Hx%elem_of_seqZ. lia.
Qed.

(** ** C2 and C4: the pages and their order *)

Lemma cold_cache_page env config book_id n :
  cold_cache env config book_id ->
  skip_existing config = false \/ cache_get env book_id n = None.
Proof. intros [H|H]; auto. Qed.

Lemma traditional_pages env config book_id total has_orig pages :
  extract_pages_traditional_method env config book_id total has_orig = Ok pages ->
  fair_pool env ->
  pages ≡ₚ omap (extract_single_page env config book_id has_orig) (seqZ 1 total).
Proof.
  unfold extract_pages_traditional_method. intros H Hfair.
  destruct (max_workers config =? 1)%Z; [by injection H as <- |].
  destruct (max_workers config <=? 0)%Z; [done |].
  injection H as <-. by rewrite (Hfair Z).
Qed.

Lemma extract_single_page_Some env config book_id has_orig n p :
  skip_existing config = false \/ cache_get env book_id n = None ->
  extract_single_page env config book_id has_orig n = Some p ->
  exists normalized_id soup,
    normalize_book_id book_id = Ok normalized_id /\
    get_soup env normalized_id n = Ok soup /\
    content p = strip (sub_newlines3 0 (body_text soup)) /\
    content p <> [] /\
    internal_index p = Some n /\
    page_number p
    = default n (if has_orig
                 then printed_page_of_title (default [] (title_tag soup))
                 else None).
Proof.
  intros Hc H. unfold extract_single_page in H.
  destruct (extract_enhanced_page_content env config book_id n has_orig)
    as [pc|] eqn:E; [| done].
  destruct (extract_enhanced_page_content_fetched _ _ _ _ _ _ Hc E)
    as (nid & soup & Hn & Hs & Hcont & Hi & _ & _ & Hp & _).
  exists nid, soup.
  assert (strip (content pc) = content pc) as Hstrip.
  { rewrite Hcont. apply strip_idem. }
  rewrite Hstrip in H.
  destruct (content pc) eqn:Ec; [done |]. injection H as <-.
  rewrite Ec. repeat split; auto; by rewrite <- Hcont.
Qed.


(** C2, as stated, fails: with original pagination the pages are sorted
    by the printed number, here 4 before 5, which puts internal index 2
    before internal index 1. *)
Lemma pages_sorted_by_printed_number :
  exists p q,
    extract_all_pages_enhanced printed_backwards sequential_config (u "43")
      2 None true = Ok [p; q] /\
    internal_index p = Some 2%Z /\ internal_index q = Some 1%Z /\
    page_number p = 4%Z /\ page_number q = 5%Z.
Proof. do 2 eexists. split; [vm_compute; reflexivity |]. done. Qed.

(** C2, amended: the pages are returned in ascending order of their page
    number.  On the thread-based path of a book without original
    pagination every page carries its internal index as page number, so
    this is the order of the internal index; when moreover no page limit
    is given and every page from 1 to the total is kept, the page at
    position [i] (from zero) has internal index [i + 1]. *)
Theorem extract_all_pages_enhanced_order
    env config book_id total max_pages has_orig pages :
  extract_all_pages_enhanced env config book_id total max_pages has_orig
  = Ok pages ->
  StronglySorted (fun p q => (page_number p <= page_number q)%Z) pages /\
  (use_async config = false -> has_orig = false ->
   cold_cache env config book_id -> fair_pool env ->
   Forall (fun p => internal_index p = Some (page_number p)) pages /\
   (max_pages = None ->
    (forall n, (1 <= n <= total)%Z ->
       is_Some (extract_single_page env config book_id false n)) ->
    length pages = Z.to_nat total /\
    forall i p, pages !! i = Some p ->
      internal_index p = Some (Z.of_nat i + 1)%Z)).
Proof.
  intros H. unfold extract_all_pages_enhanced in H.
  match type of H with bind ?x _ = _ => destruct x as [pages0|] eqn:E0 end;
    [| done].
  simpl in H. injection H as <-. split; [apply py_sorted_by_key |].
  intros Hasync -> Hcold Hfair. rewrite Hasync in E0. simpl in E0.
  pose proof (traditional_pages _ _ _ _ _ _ E0 Hfair) as Hperm.
  assert (Forall (fun p => internal_index p = Some (page_number p)) pages0) as Hidx.
  { rewrite Hperm. apply Forall_forall. intros p Hp.
    apply list_elem_of_omap in Hp as (n & _ & Hp).
    apply extract_single_page_Some in Hp
      as (_ & _ & _ & _ & _ & _ & -> & ->); [done |].
    by apply cold_cache_page. }
  split; [by rewrite py_sorted_perm |].
  intros -> Hall. simpl in E0, Hperm.
  assert (page_number <$> py_sorted (key_leb page_number) pages0 = seqZ 1 total)
    as Hkeys.
  { apply (StronglySorted_unique Z.le).
    - eapply StronglySorted_fmap; [| apply py_sorted_by_key]. done.
    - apply seqZ_StronglySorted.
    - rewrite py_sorted_perm, Hperm. clear -Hall Hcold.
      assert (forall l, Forall (fun n => 1 <= n <= total)%Z l ->
                page_number <$> omap (extract_single_page env config book_id false) l
                = l) as Hl.
      { induction 1 as [|n l Hn _ IH]; [done |]. simpl.
        destruct (Hall n Hn) as [p Hp]. rewrite Hp. simpl. f_equal; [| exact IH].
        apply extract_single_page_Some in Hp
          as (_ & _ & _ & _ & _ & _ & _ & ->); [done |].
        by apply cold_cache_page. }
      rewrite Hl; [done |]. apply Forall_forall. intros n Hn%elem_of_seqZ. lia. }
  split.
  - rewrite <- (length_fmap page_number), Hkeys. apply length_seqZ.
  - intros i p Hp.
    assert ((page_number <$> py_sorted (key_leb page_number) pages0) !! i
            = Some (page_number p)) as Hk.
    { by rewrite list_lookup_fmap, Hp. }
    rewrite Hkeys in Hk. apply lookup_seqZ in Hk as [Hk _].
    assert (Forall (fun p => internal_index p = Some (page_number p))
              (py_sorted (key_leb page_number) pages0)) as Hidx'.
    { by rewrite py_sorted_perm. }
    rewrite Forall_forall in Hidx'. rewrite (Hidx' p).
    + f_equal. lia.
    + by eapply list_elem_of_lookup_2.
Qed.

Lemma extract_all_pages_enhanced_order_witness :
  exists pages,
    extract_all_pages_enhanced short_latin_pages sequential_config (u "43")
      3 None false = Ok pages /\
    StronglySorted (fun p q => (page_number p <= page_number q)%Z) pages /\
    forall i p, pages !! i = Some p -> internal_index p = Some (Z.of_nat i + 1)%Z.
Proof.
  eexists. split; [vm_compute; reflexivity |].
  destruct (extract_all_pages_enhanced_order short_latin_pages
              sequential_config (u "43") 3 None false _ eq_refl) as [Hs H].
  split; [exact Hs |].
  destruct H as [_ H]; [done | done | by right | |].
  { intros A l. apply reverse_Permutation. }
  destruct H as [_ H]; [done | | exact H].
  intros n Hn. assert (n = 1 \/ n = 2 \/ n = 3)%Z as [-> | [-> | ->]] by lia;
    vm_compute; eauto.
Defined.







(** The validator of the ultra-reliable extractor does check the length
    and the share of Arabic letters: it turns down a text shorter than
    [min_content_length], and one of 50 characters is accepted with six
    Arabic letters and turned down with five, which is exactly 10%. *)
Lemma validate_page_content_length config text :
  validate_page_content config text = true ->
  text <> [] /\ (min_content_length config <= Z.of_nat (length text))%Z.
Proof.
  unfold validate_page_content. destruct text as [|c text]; [done |].
  destruct (Z.of_nat (length (c :: text)) <? min_content_length config)%Z eqn:E;
    [done |].
  intros _. split; [done |]. by apply Z.ltb_ge.
Qed.

Lemma validate_page_content_ten_percent :
  let config := {| min_content_length := 50; check_content_quality := true |} in
  validate_page_content config (replicate 45 (ch "a") ++ replicate 5 (ch "م"))
  = false /\
  validate_page_content config (replicate 44 (ch "a") ++ replicate 6 (ch "م"))
  = true /\
  validate_page_content config (replicate 49 (ch "م")) = false.
Proof. by vm_compute. Qed.

(** ** C5: the volumes *)

Lemma foldl_min_spec r : forall x,
  foldl Z.min x r ∈ x :: r /\ Forall (fun y => (foldl Z.min x r <= y)%Z) (x :: r).
Proof.
  induction r as [|y r IH]; intros x; simpl.
  - split; [left | by constructor].
  - destruct (IH (Z.min x y)) as [Hin Hle]. split.
    + apply elem_of_cons in Hin as [Hin|Hin]; [| by do 2 right].
      rewrite Hin. destruct (Z.min_spec x y) as [[_ ->]|[_ ->]];
        [left | right; left].
    + apply Forall_cons in Hle as [Hm Hle].
      repeat constructor; [lia | lia | done].
Qed.

Lemma min_of_Some l s :
  min_of l = Some s <-> s ∈ l /\ Forall (fun y => (s <= y)%Z) l.
Proof.
  destruct l as [|x r]; simpl.
  - split; [done | by intros [?%elem_of_nil _]].
  - pose proof (foldl_min_spec r x) as [Hin Hle]. split.
    + by intros [= <-].
    + intros [Hs Hall]. f_equal.
      rewrite Forall_forall in Hle, Hall.
      specialize (Hle s Hs). specialize (Hall _ Hin). lia.
Qed.

Lemma starts_of_cons vol e volume_data :
  starts_of vol (e :: volume_data)
  = if decide (e.1 = vol) then e.2 :: starts_of vol volume_data
    else starts_of vol volume_data.
Proof. unfold starts_of. rewrite filter_cons. by destruct (decide (e.1 = vol)). Qed.

Lemma elem_of_starts_of vol s volume_data :
  s ∈ starts_of vol volume_data <-> (vol, s) ∈ volume_data.
Proof.
  unfold starts_of. rewrite list_elem_of_fmap. split.
  - intros ([k s'] & -> & [Hk Hin]%list_elem_of_filter). simpl in *. by subst k.
  - intros Hin. exists (vol, s). split; [done |].
    apply list_elem_of_filter. done.
Qed.

(** The dictionary holds, for every part number, the smallest start. *)
Lemma foldl_add_volume volume_data : forall (m : gmap Z Z) vol,
  foldl add_volume m volume_data !! vol
  = match m !! vol with
    | Some s => Some (foldl Z.min s (starts_of vol volume_data))
    | None => min_of (starts_of vol volume_data)
    end.
Proof.
  induction volume_data as [|[k st] volume_data IH]; intros m vol; simpl.
  - by destruct (m !! vol).
  - rewrite IH, starts_of_cons. simpl. unfold add_volume. simpl.
    destruct (decide (k = vol)) as [->|Hk].
    + destruct (m !! vol) as [s|]; rewrite lookup_insert_eq; done.
    + destruct (m !! k); by rewrite lookup_insert_ne.
Qed.

Lemma unique_volumes_lookup volume_data vol :
  unique_volumes_of volume_data !! vol = min_of (starts_of vol volume_data).
Proof. unfold unique_volumes_of. by rewrite foldl_add_volume, lookup_empty. Qed.












(** ** Batches and chunks of the asynchronous paths *)

Lemma py_range_cover (step total : Z) :
  (0 < step)%Z ->
  flat_map (fun i => seqZ i (Z.min (i + step - 1) total + 1 - i))
           (py_range 1 (total + 1) step)
  = seqZ 1 total.
Proof.
  intros Hstep. unfold py_range.
  assert ((0 <? step)%Z = true) as -> by lia.
  replace (total + 1 - 1 + step - 1)%Z with (total + step - 1)%Z by lia.
  set (n := ((total + step - 1) / step)%Z).
  assert (forall m : nat, (Z.of_nat m <= Z.max 0 n)%Z ->
            flat_map (fun i => seqZ i (Z.min (i + step - 1) total + 1 - i))
              ((fun k => (1 + Z.of_nat k * step)%Z) <$> seq 0 m)
            = seqZ 1 (Z.min (Z.of_nat m * step) total)) as H.
  { induction m as [|m IH]; intros Hm.
    - simpl. rewrite seqZ_nil; [done | lia].
    - rewrite seq_S, fmap_app, flat_map_app, IH by lia. simpl.
      rewrite app_nil_r.
      assert (Z.of_nat m * step < total)%Z as Hlt.
      { assert (Z.of_nat m < n)%Z as Hmn by lia.
        assert (step * n <= total + step - 1)%Z
          by (apply Z.mul_div_le; lia).
        nia. }
      replace (Z.min (Z.of_nat m * step) total) with (Z.of_nat m * step)%Z by lia.
      replace (Z.min (Z.of_nat (S m) * step) total)
        with (Z.of_nat m * step
              + (Z.min (1 + Z.of_nat m * step + step - 1) total + 1
                 - (1 + Z.of_nat m * step)))%Z by lia.
      rewrite seqZ_app by lia. done. }
  rewrite H by lia. f_equal.
  destruct (decide (0 <= total)%Z) as [Ht|Ht].
  - assert (total + step - 1 < step * (n + 1))%Z.
    { pose proof (Z.mul_succ_div_gt (total + step - 1) step Hstep). unfold n. lia. }
    assert (0 <= n)%Z by (apply Z.div_pos; lia).
    rewrite Z2Nat.id by lia. lia.
  - lia.
Qed.









Lemma chunk_size_positive config total :
  (0 < process_chunk_size config)%Z ->
  (0 < Z.max (process_chunk_size config) (total / max_processes config))%Z.
Proof. lia. Qed.

(** X1: when the chunk size is positive, the chunks of the multiprocess
    path are consecutive ranges that together hold every page from 1 to
    the total exactly once, in ascending order. *)
Theorem create_page_chunks_cover config total chunks :
  (0 < process_chunk_size config)%Z ->
  create_page_chunks config total = Ok chunks ->
  flat_map (fun c => seqZ c.1 (c.2 + 1 - c.1)) chunks = seqZ 1 total
  /\ Forall (fun c => (1 <= c.1 <= c.2)%Z /\ (c.2 <= total)%Z
                      /\ (c.2 - c.1 < Z.max (process_chunk_size config)
                                        (total / max_processes config))%Z)
            chunks.
Proof.
  intros Hc. pose proof (chunk_size_positive config total Hc) as Hpos.
  unfold create_page_chunks.
  destruct (max_processes config =? 0)%Z; [done |].
  set (chunk_size := Z.max _ _) in *.
  assert ((chunk_size =? 0)%Z = false) as -> by lia.
  intros [= <-]. split.
  - rewrite <- (py_range_cover chunk_size total Hpos).
    generalize (py_range 1 (total + 1) chunk_size).
    induction l as [|i l IH]; [done |]. simpl. f_equal. exact IH.
  - apply Forall_forall. intros c (i & -> & Hi)%list_elem_of_fmap. simpl.
    unfold py_range in Hi. assert ((0 <? chunk_size)%Z = true) as Hs by lia.
    rewrite Hs in Hi. apply list_elem_of_fmap in Hi as (k & -> & Hk).
    apply elem_of_seq in Hk.
    assert (Z.of_nat k < (total + 1 - 1 + chunk_size - 1) / chunk_size)%Z by lia.
    assert (chunk_size * ((total + 1 - 1 + chunk_size - 1) / chunk_size)
            <= total + 1 - 1 + chunk_size - 1)%Z by (apply Z.mul_div_le; lia).
    assert (Z.of_nat k * chunk_size < total)%Z by nia.
    nia.
Qed.

Lemma create_page_chunks_cover_witness :
  exists chunks,
    create_page_chunks (small_batches 5) 7 = Ok chunks /\
    flat_map (fun c => seqZ c.1 (c.2 + 1 - c.1)) chunks = seqZ 1 7.
Proof.
  eexists. split; [reflexivity |].
  apply (create_page_chunks_cover (small_batches 5) 7); [simpl; lia | reflexivity].
Defined.




(** ** The response cache *)

Section Cache.
Context {V : Type}.
Implicit Types (self : OptimizedCache.t V) (key : pystr) (value : V).

Lemma remove_perm key l :
  key ∈ l -> exists l', OptimizedCache.remove key l = Some l' /\ l ≡ₚ key :: l'.
Proof.
  induction l as [|x l IH]; intros Hin; [by apply elem_of_nil in Hin |].
  simpl. case_bool_decide as Hx; [subst; eauto |].
  apply elem_of_cons in Hin as [->|Hin]; [done |].
  destruct (IH Hin) as (l' & -> & Hp). eexists. split; [done |].
  rewrite Hp. apply Permutation_swap.
Qed.

Lemma move_to_end_perm key l :
  key ∈ l ->
  exists l', OptimizedCache.move_to_end key l = inr (l' ++ [key])
             /\ l' ++ [key] ≡ₚ l.
Proof.
  intros (l' & Hr & Hp)%remove_perm. exists l'.
  unfold OptimizedCache.move_to_end. rewrite Hr. split; [done |].
  rewrite Hp. by rewrite Permutation_app_comm.
Qed.

Lemma cache_consistent_size self :
  cache_consistent self ->
  size (OptimizedCache.cache self) = length (OptimizedCache.access_order self).
Proof.
  intros [Hnd Hkeys].
  rewrite <- size_dom, <- (size_list_to_set (C := gset pystr)) by done.
  f_equal. apply set_eq. intros key.
  by rewrite elem_of_dom, elem_of_list_to_set, Hkeys.
Qed.

Lemma cache_consistent_init m : cache_consistent (OptimizedCache.init (V := V) m).
Proof.
  split; [constructor |]. intros key. simpl. rewrite lookup_empty.
  split; [by intros ?%elem_of_nil | by intros [? ?]].
Qed.

(** A hit returns the stored value, leaves the entries as they are and
    makes the key the most recently used one. *)
Lemma get_consistent self key default :
  cache_consistent self ->
  exists self',
    OptimizedCache.get self key default
    = inr (from_option Some default (OptimizedCache.cache self !! key), self')
    /\ cache_consistent self'
    /\ OptimizedCache.cache self' = OptimizedCache.cache self
    /\ OptimizedCache.max_size self' = OptimizedCache.max_size self
    /\ (is_Some (OptimizedCache.cache self !! key) ->
        last (OptimizedCache.access_order self') = Some key).
Proof.
  intros [Hnd Hkeys]. unfold OptimizedCache.get.
  destruct (OptimizedCache.cache self !! key) as [value|] eqn:E.
  - assert (key ∈ OptimizedCache.access_order self) as Hin by (apply Hkeys; eauto).
    destruct (move_to_end_perm _ _ Hin) as (l' & -> & Hp).
    eexists. split; [done |]. unfold cache_consistent. simpl.
    split; [split; [by rewrite Hp | intros k; by rewrite Hp] |].
    repeat split; try done. intros _. apply last_snoc.
  - exists self. repeat split; try done; try apply Hkeys.
Qed.

(** [set] on a consistent cache that may hold an entry at all. *)
Lemma set_consistent self key value :
  cache_consistent self ->
  (1 <= OptimizedCache.max_size self)%Z ->
  exists self',
    OptimizedCache.set self key value = inr self'
    /\ cache_consistent self'
    /\ OptimizedCache.max_size self' = OptimizedCache.max_size self
    /\ OptimizedCache.cache self' !! key = Some value
    /\ last (OptimizedCache.access_order self') = Some key
    /\ (Z.of_nat (size (OptimizedCache.cache self'))
        <= Z.max (Z.of_nat (size (OptimizedCache.cache self)))
                 (OptimizedCache.max_size self))%Z
    /\ forall key', key' <> key ->
         OptimizedCache.cache self' !! key' = OptimizedCache.cache self !! key'
         \/ (OptimizedCache.cache self !! key = None
             /\ (OptimizedCache.max_size self
                 <= Z.of_nat (size (OptimizedCache.cache self)))%Z
             /\ head (OptimizedCache.access_order self) = Some key'
             /\ OptimizedCache.cache self' !! key' = None).
Proof.
  intros Hc Hmax. pose proof (cache_consistent_size self Hc) as Hsize.
  destruct Hc as [Hnd Hkeys]. unfold OptimizedCache.set.
  destruct (OptimizedCache.cache self !! key) as [old|] eqn:E.
  - assert (key ∈ OptimizedCache.access_order self) as Hin by (apply Hkeys; eauto).
    destruct (move_to_end_perm _ _ Hin) as (l' & -> & Hp).
    eexists. split; [done |]. unfold cache_consistent. simpl. split; [split |].
    + by rewrite Hp.
    + intros k. simpl. rewrite Hp, Hkeys.
      destruct (decide (k = key)) as [->|Hk].
      * rewrite lookup_insert_eq, E. split; eauto.
      * by rewrite lookup_insert_ne.
    + repeat split.
      * by rewrite lookup_insert_eq.
      * apply last_snoc.
      * rewrite map_size_insert_Some by eauto. lia.
      * intros k Hk. left. by rewrite lookup_insert_ne.
  - assert (key ∉ OptimizedCache.access_order self) as Hnin.
    { intros Hin%Hkeys. rewrite E in Hin. by destruct Hin. }
    destruct (OptimizedCache.max_size self
              <=? Z.of_nat (size (OptimizedCache.cache self)))%Z eqn:Efull.
    + destruct (OptimizedCache.access_order self) as [|oldest order] eqn:Eo.
      { simpl in Hsize. lia. }
      assert (is_Some (OptimizedCache.cache self !! oldest)) as [v Hv].
      { apply Hkeys. left. }
      rewrite Hv. apply NoDup_cons in Hnd as [Hon Hnd].
      assert (oldest <> key) as Hok.
      { intros ->. apply Hnin. left. }
      eexists. split; [done |]. unfold cache_consistent. simpl. split; [split |].
      * simpl. apply NoDup_app. repeat split; [done | | apply NoDup_singleton].
        intros k Hk ->%list_elem_of_singleton. apply Hnin. by right.
      * intros k. simpl. rewrite elem_of_app, list_elem_of_singleton.
        destruct (decide (k = key)) as [->|Hk].
        { rewrite lookup_insert_eq. split; eauto. }
        rewrite lookup_insert_ne by done.
        destruct (decide (k = oldest)) as [->|Hko].
        { rewrite lookup_delete_eq. split; [| by intros [? ?]].
          intros [?|?]; done. }
        rewrite lookup_delete_ne by done. rewrite <- Hkeys, elem_of_cons.
        split; [intros [?|?]; [by right | done] | intros [?|?]; [done | by left]].
      * repeat split.
        { by rewrite lookup_insert_eq. }
        { apply last_snoc. }
        { rewrite map_size_insert_None
            by (rewrite lookup_delete_ne by done; done).
          pose proof (map_size_delete_Some oldest (OptimizedCache.cache self)
                        (ltac:(eauto))). lia. }
        intros k Hk. rewrite lookup_insert_ne by done.
        destruct (decide (k = oldest)) as [->|Hko].
        { right. rewrite lookup_delete_eq. repeat split; try done. lia. }
        left. by rewrite lookup_delete_ne.
    + eexists. split; [done |]. unfold cache_consistent. simpl. split; [split |].
      * simpl. apply NoDup_app. repeat split; [done | | apply NoDup_singleton].
        by intros k Hk ->%list_elem_of_singleton.
      * intros k. simpl. rewrite elem_of_app, list_elem_of_singleton.
        destruct (decide (k = key)) as [->|Hk].
        { rewrite lookup_insert_eq. split; eauto. }
        rewrite lookup_insert_ne by done. rewrite <- Hkeys.
        split; [intros [?|?]; done | by left].
      * repeat split.
        { by rewrite lookup_insert_eq. }
        { apply last_snoc. }
        { rewrite map_size_insert_None by done. lia. }
        intros k Hk. left. by rewrite lookup_insert_ne.
Qed.

Lemma NoDup_head_last (l : list pystr) key :
  NoDup l -> head l = Some key -> last l = Some key -> (length l <= 1)%nat.
Proof.
  destruct l as [|x [|y l]]; simpl; [lia | lia |].
  intros Hnd [= ->] Hlast. exfalso.
  apply NoDup_cons in Hnd as [Hx _]. apply Hx.
  change (last (y :: l) = Some key) in Hlast.
  apply last_Some in Hlast as [l' ->]. apply elem_of_app. right. left.
Qed.

(** X3: the calls of [get], [set] and [clear] keep a cache that may hold
    an entry within its bound: from a state whose access list names the
    keys of the dictionary once each, with at most [max_size] entries,
    no sequence of calls raises an error, and the state it leaves is
    again of this kind. *)
Theorem cache_calls_bounded (calls : list (cache_call V)) self :
  cache_consistent self ->
  (1 <= OptimizedCache.max_size self)%Z ->
  (Z.of_nat (size (OptimizedCache.cache self)) <= OptimizedCache.max_size self)%Z ->
  exists self',
    cache_calls calls self = inr self'
    /\ cache_consistent self'
    /\ OptimizedCache.max_size self' = OptimizedCache.max_size self
    /\ (Z.of_nat (size (OptimizedCache.cache self'))
        <= OptimizedCache.max_size self)%Z.
Proof.
  revert self. induction calls as [|call calls IH]; intros self Hc Hmax Hsize.
  { exists self. repeat (split; [done |]). done. }
  assert (exists self1,
            match call with
            | CallGet key =>
                match OptimizedCache.get self key None with
                | inr (_, self') => inr self'
                | inl e => inl e
                end
            | CallSet key value => OptimizedCache.set self key value
            | CallClear => inr (OptimizedCache.clear self)
            end = inr self1
            /\ cache_consistent self1
            /\ OptimizedCache.max_size self1 = OptimizedCache.max_size self
            /\ (Z.of_nat (size (OptimizedCache.cache self1))
                <= OptimizedCache.max_size self)%Z)
    as (self1 & Hcall & Hc1 & Hmax1 & Hsize1).
  { destruct call as [key|key value|].
    - destruct (get_consistent self key None Hc) as (self1 & -> & ? & Hcache & ? & _).
      exists self1. rewrite Hcache. repeat (split; [done |]). done.
    - destruct (set_consistent self key value Hc Hmax)
        as (self1 & -> & ? & ? & _ & _ & ? & _).
      exists self1. repeat (split; [done |]). lia.
    - eexists. split; [done |]. split; [apply cache_consistent_init |].
      simpl. rewrite map_size_empty. split; [done | lia]. }
  simpl. rewrite Hcall.
  destruct (IH self1) as (self' & -> & ? & ? & ?); [done | lia | lia |].
  exists self'. repeat (split; [done || lia |]). lia.
Qed.

(** X4: the entry used last outlives the next [set]: in a cache that may
    hold two entries, after a [set] of any key the most recently used
    key still has its value (or the new one, if it is the key set). *)
Theorem cache_keeps_most_recent self recent v key value self' :
  cache_consistent self ->
  (2 <= OptimizedCache.max_size self)%Z ->
  last (OptimizedCache.access_order self) = Some recent ->
  OptimizedCache.cache self !! recent = Some v ->
  OptimizedCache.set self key value = inr self' ->
  OptimizedCache.cache self' !! recent
  = Some (if bool_decide (recent = key) then value else v).
Proof.
  intros Hc Hmax Hlast Hv Hset.
  destruct (set_consistent self key value Hc)
    as (self1 & Hset1 & _ & _ & Hkey & _ & _ & Hrest); [lia |].
  rewrite Hset in Hset1. injection Hset1 as <-.
  case_bool_decide as Hk; [by subst |].
  destruct (Hrest recent Hk) as [-> | (_ & Hfull & Hhead & _)]; [done |].
  exfalso. rewrite (cache_consistent_size self Hc) in Hfull.
  pose proof (NoDup_head_last _ _ (proj1 Hc) Hhead Hlast). lia.
Qed.

(** X5: a [set] of a new key into a full cache drops the least recently
    used entry, the head of the access list, and nothing else. *)
Theorem cache_evicts_least_recent self key value :
  cache_consistent self ->
  (1 <= OptimizedCache.max_size self)%Z ->
  (OptimizedCache.max_size self <= Z.of_nat (size (OptimizedCache.cache self)))%Z ->
  OptimizedCache.cache self !! key = None ->
  exists oldest order,
    OptimizedCache.access_order self = oldest :: order
    /\ OptimizedCache.set self key value
       = inr (OptimizedCache.Build
                (<[key := value]> (delete oldest (OptimizedCache.cache self)))
                (OptimizedCache.max_size self) (order ++ [key]))
    /\ is_Some (OptimizedCache.cache self !! oldest)
    /\ (oldest ∉ order) /\ oldest <> key.
Proof.
  intros Hc Hmax Hfull Hkey. pose proof (cache_consistent_size self Hc) as Hsize.
  destruct Hc as [Hnd Hkeys]. unfold OptimizedCache.set. rewrite Hkey.
  assert ((OptimizedCache.max_size self
           <=? Z.of_nat (size (OptimizedCache.cache self)))%Z = true) as -> by lia.
  destruct (OptimizedCache.access_order self) as [|oldest order] eqn:Eo.
  { simpl in Hsize. lia. }
  assert (is_Some (OptimizedCache.cache self !! oldest)) as [v Hv].
  { apply Hkeys. left. }
  exists oldest, order. rewrite Hv. apply NoDup_cons in Hnd as [Hon _].
  repeat split; eauto. intros ->. by rewrite Hkey in Hv.
Qed.

(** X6: a cache made with a maximal size of zero or less holds nothing:
    a run of calls from the empty cache raises [IndexError] at its
    first [set], and without a [set] it leaves the cache empty. *)
Theorem cache_without_room (calls : list (cache_call V)) m :
  (m <= 0)%Z ->
  cache_calls calls (OptimizedCache.init m)
  = if existsb (fun call => match call with CallSet _ _ => true | _ => false end)
               calls
    then inl OptimizedCache.IndexError
    else inr (OptimizedCache.init m).
Proof.
  intros Hm. induction calls as [|[key|key value|] calls IH]; [done | | |].
  - simpl. unfold OptimizedCache.get. simpl. rewrite lookup_empty. exact IH.
  - simpl. unfold OptimizedCache.set. simpl. rewrite lookup_empty.
    rewrite map_size_empty.
    destruct (Z.leb_spec m (Z.of_nat 0)); [done | simpl in *; lia].
  - exact IH.
Qed.

End Cache.

Lemma cache_calls_bounded_witness :
  exists self,
    cache_calls [CallSet (u "a") 1%Z; CallSet (u "b") 2%Z; CallGet (u "a");
                 CallSet (u "c") 3%Z] (OptimizedCache.init 2)
    = inr self
    /\ (Z.of_nat (size (OptimizedCache.cache self)) <= 2)%Z.
Proof.
  destruct (cache_calls_bounded
              [CallSet (u "a") 1%Z; CallSet (u "b") 2%Z; CallGet (u "a");
               CallSet (u "c") 3%Z] (OptimizedCache.init 2))
    as (self & H & _ & _ & Hs).
  - apply cache_consistent_init.
  - simpl. lia.
  - simpl. rewrite map_size_empty. lia.
  - exists self. split; [exact H | exact Hs].
Defined.

Lemma cache_consistent_singleton {V : Type} key (value : V) m :
  cache_consistent (OptimizedCache.Build {[key := value]} m [key]).
Proof.
  split; simpl; [apply NoDup_singleton |]. intros k.
  rewrite list_elem_of_singleton. destruct (decide (k = key)) as [->|Hk].
  - rewrite lookup_singleton_eq. split; eauto.
  - rewrite lookup_singleton_ne by done. split; [done | by intros [? ?]].
Qed.

Lemma cache_keeps_most_recent_witness :
  exists self',
    OptimizedCache.set (OptimizedCache.Build {[u "a" := 1%Z]} 2 [u "a"])
      (u "b") 2%Z = inr self'
    /\ OptimizedCache.cache self' !! u "a" = Some 1%Z.
Proof.
  destruct (set_consistent (OptimizedCache.Build {[u "a" := 1%Z]} 2 [u "a"])
              (u "b") 2%Z) as (self' & Hset & _).
  { apply cache_consistent_singleton. }
  { simpl. lia. }
  exists self'. split; [exact Hset |].
  rewrite (cache_keeps_most_recent
             (OptimizedCache.Build {[u "a" := 1%Z]} 2 [u "a"])
             (u "a") 1%Z (u "b") 2%Z self');
    [done | apply cache_consistent_singleton | simpl; lia | done
    | simpl; apply lookup_singleton_eq | exact Hset].
Defined.

Lemma cache_evicts_least_recent_witness :
  exists self',
    OptimizedCache.set (OptimizedCache.Build {[u "a" := 1%Z]} 1 [u "a"])
      (u "b") 2%Z = inr self'
    /\ OptimizedCache.access_order self' = [u "b"].
Proof.
  destruct (cache_evicts_least_recent
              (OptimizedCache.Build {[u "a" := 1%Z]} 1 [u "a"]) (u "b") 2%Z)
    as (oldest & order & Ho & Hset & _).
  - apply cache_consistent_singleton.
  - simpl. lia.
  - simpl. rewrite map_size_singleton. lia.
  - simpl. by apply lookup_singleton_ne.
  - simpl in Ho. injection Ho as <- <-. eexists. split; [exact Hset | done].
Defined.

Lemma cache_without_room_witness :
  cache_calls [CallGet (u "a"); CallSet (u "a") 1%Z; CallClear]
    (OptimizedCache.init 0)
  = inl OptimizedCache.IndexError.
Proof.
  apply (cache_without_room
           [CallGet (u "a"); CallSet (u "a") 1%Z; CallClear] 0). lia.
Defined.

(** ** Requests with retries *)

Lemma set_lookup {V : Type} (self self' : OptimizedCache.t V) key value :
  OptimizedCache.set self key value = inr self' ->
  OptimizedCache.cache self' !! key = Some value
  /\ last (OptimizedCache.access_order self') = Some key.
Proof.
  unfold OptimizedCache.set, OptimizedCache.move_to_end. intros H.
  destruct (OptimizedCache.cache self !! key).
  - destruct (OptimizedCache.remove key _); [| done]. injection H as <-.
    simpl. by rewrite lookup_insert_eq, last_snoc.
  - destruct (_ <=? _)%Z.
    + destruct (OptimizedCache.access_order self) as [|oldest order]; [done |].
      destruct (OptimizedCache.cache self !! oldest); [| done].
      injection H as <-. simpl. by rewrite lookup_insert_eq, last_snoc.
    + injection H as <-. simpl. by rewrite lookup_insert_eq, last_snoc.
Qed.

Lemma get_hit {V : Type} (self self' : OptimizedCache.t V) key default v :
  OptimizedCache.get self key default = inr (Some v, self') ->
  (OptimizedCache.cache self !! key = Some v
   /\ OptimizedCache.cache self' = OptimizedCache.cache self
   /\ last (OptimizedCache.access_order self') = Some key)
  \/ (OptimizedCache.cache self !! key = None /\ default = Some v /\ self' = self).
Proof.
  unfold OptimizedCache.get, OptimizedCache.move_to_end. intros H.
  destruct (OptimizedCache.cache self !! key) as [w|].
  - destruct (OptimizedCache.remove key _); [| done]. injection H as <- <-.
    left. simpl. by rewrite last_snoc.
  - injection H as <- <-. by right.
Qed.

Lemma remove_last key l :
  last l = Some key -> is_Some (OptimizedCache.remove key l).
Proof.
  intros [l' ->]%last_Some. induction l' as [|x l' IH]; simpl.
  - rewrite bool_decide_eq_true_2 by done. eauto.
  - case_bool_decide; [eauto |]. destruct IH as [r ->]. eauto.
Qed.

(** The loop from the attempt [retries - k] on, with [k] attempts left. *)
Lemma safe_request_loop_spec http_get global_cache url retries use_cache (k : nat) :
  (0 <= retries - Z.of_nat k)%Z ->
  match safe_request_loop http_get global_cache url retries use_cache
          (seqZ (retries - Z.of_nat k) (Z.of_nat k))
          (Z.to_nat (retries - Z.of_nat k)) with
  | Returns (Some v) global_cache' gets =>
      exists r, v = CachedResponse r /\ status_code r = 200%Z
        /\ (retries - Z.of_nat k < Z.of_nat gets <= retries)%Z
        /\ http_get (Z.of_nat gets - 1)%Z = Answer r
        /\ (if use_cache
            then OptimizedCache.set global_cache url v = inr global_cache'
            else global_cache' = global_cache)
  | Returns None global_cache' gets =>
      global_cache' = global_cache /\ Z.of_nat gets = retries
      /\ (k = 0%nat
          \/ exists r, http_get (retries - 1)%Z = Answer r
               /\ status_code r <> 200%Z /\ raises_for_status r = false)
  | Raises (Raised e) gets =>
      e = EnhancedShamelaScraperError /\ Z.of_nat gets = retries
      /\ (0 < k)%nat /\ failed_answer (http_get (retries - 1)%Z)
  | Raises (CacheRaised e) gets =>
      use_cache = true
      /\ exists r, (retries - Z.of_nat k < Z.of_nat gets <= retries)%Z
           /\ http_get (Z.of_nat gets - 1)%Z = Answer r
           /\ status_code r = 200%Z
           /\ OptimizedCache.set global_cache url (CachedResponse r) = inl e
  end.
Proof.
  induction k as [|k IH]; intros Ha.
  { simpl. repeat split; [lia | by left]. }
  rewrite seqZ_cons by lia.
  replace (Z.pred (Z.of_nat (S k))) with (Z.of_nat k) by lia.
  replace (Z.succ (retries - Z.of_nat (S k))) with (retries - Z.of_nat k)%Z by lia.
  set (a := (retries - Z.of_nat (S k))%Z) in *.
  assert (Z.of_nat (S (Z.to_nat a)) - 1 = a)%Z as Hget by lia.
  assert (S (Z.to_nat a) = Z.to_nat (retries - Z.of_nat k)) as Hgets by lia.
  assert (match safe_request_loop http_get global_cache url retries use_cache
                  (seqZ (retries - Z.of_nat k) (Z.of_nat k)) (S (Z.to_nat a)) with
          | Returns (Some v) global_cache' gets =>
              exists r, v = CachedResponse r /\ status_code r = 200%Z
                /\ (a < Z.of_nat gets <= retries)%Z
                /\ http_get (Z.of_nat gets - 1)%Z = Answer r
                /\ (if use_cache
                    then OptimizedCache.set global_cache url v = inr global_cache'
                    else global_cache' = global_cache)
          | Returns None global_cache' gets =>
              global_cache' = global_cache /\ Z.of_nat gets = retries
              /\ (k = 0%nat
                  \/ exists r, http_get (retries - 1)%Z = Answer r
                       /\ status_code r <> 200%Z /\ raises_for_status r = false)
          | Raises (Raised e) gets =>
              e = EnhancedShamelaScraperError /\ Z.of_nat gets = retries
              /\ (0 < S k)%nat /\ failed_answer (http_get (retries - 1)%Z)
          | Raises (CacheRaised e) gets =>
              use_cache = true
              /\ exists r, (a < Z.of_nat gets <= retries)%Z
                   /\ http_get (Z.of_nat gets - 1)%Z = Answer r
                   /\ status_code r = 200%Z
                   /\ OptimizedCache.set global_cache url (CachedResponse r) = inl e
          end) as Hnext.
  { rewrite Hgets. specialize (IH ltac:(lia)).
    destruct (safe_request_loop _ _ _ _ _ _ _) as [[v|] c g|[e|e] g].
    - destruct IH as (r & ? & ? & ? & ? & ?). exists r. repeat split; try done; lia.
    - done.
    - destruct IH as (? & r & ? & ? & ? & ?). split; [done |].
      exists r. repeat split; try done; lia.
    - destruct IH as (? & ? & ? & ?). repeat split; try done; lia. }
  assert ((0 < k)%nat ->
          match safe_request_loop http_get global_cache url retries use_cache
                  (seqZ (retries - Z.of_nat k) (Z.of_nat k)) (S (Z.to_nat a)) with
          | Returns (Some v) global_cache' gets =>
              exists r, v = CachedResponse r /\ status_code r = 200%Z
                /\ (a < Z.of_nat gets <= retries)%Z
                /\ http_get (Z.of_nat gets - 1)%Z = Answer r
                /\ (if use_cache
                    then OptimizedCache.set global_cache url v = inr global_cache'
                    else global_cache' = global_cache)
          | Returns None global_cache' gets =>
              global_cache' = global_cache /\ Z.of_nat gets = retries
              /\ (S k = 0%nat
                  \/ exists r, http_get (retries - 1)%Z = Answer r
                       /\ status_code r <> 200%Z /\ raises_for_status r = false)
          | Raises (Raised e) gets =>
              e = EnhancedShamelaScraperError /\ Z.of_nat gets = retries
              /\ (0 < S k)%nat /\ failed_answer (http_get (retries - 1)%Z)
          | Raises (CacheRaised e) gets =>
              use_cache = true
              /\ exists r, (a < Z.of_nat gets <= retries)%Z
                   /\ http_get (Z.of_nat gets - 1)%Z = Answer r
                   /\ status_code r = 200%Z
                   /\ OptimizedCache.set global_cache url (CachedResponse r) = inl e
          end) as Hlater.
  { intros Hk.
    destruct (safe_request_loop http_get global_cache url retries use_cache
                (seqZ (retries - Z.of_nat k) (Z.of_nat k)) (S (Z.to_nat a)))
      as [[v|] c g|[e|e] g]; try exact Hnext.
    destruct Hnext as (? & ? & [?|?]); [lia | repeat split; try done; by right]. }
  cbn [safe_request_loop].
  destruct (http_get a) as [response|] eqn:Eget.
  - destruct (status_code response =? 200)%Z eqn:E200.
    { destruct use_cache.
      - destruct (OptimizedCache.set _ _ _) as [e|c'] eqn:Eset.
        + split; [done |]. exists response. rewrite Hget.
          repeat split; try done; lia.
        + exists response. rewrite Hget. repeat split; try done; lia.
      - exists response. rewrite Hget. repeat split; try done; lia. }
    assert (forall b : bool,
              (if b then if (a =? retries - 1)%Z then
                 Raises (Raised EnhancedShamelaScraperError) (S (Z.to_nat a))
               else safe_request_loop http_get global_cache url retries use_cache
                      (seqZ (retries - Z.of_nat k) (Z.of_nat k)) (S (Z.to_nat a))
               else if (a <? retries - 1)%Z then
                 safe_request_loop http_get global_cache url retries use_cache
                   (seqZ (retries - Z.of_nat k) (Z.of_nat k)) (S (Z.to_nat a))
               else Raises (Raised EnhancedShamelaScraperError) (S (Z.to_nat a)))
              = if (a <? retries - 1)%Z then
                  safe_request_loop http_get global_cache url retries use_cache
                    (seqZ (retries - Z.of_nat k) (Z.of_nat k)) (S (Z.to_nat a))
                else Raises (Raised EnhancedShamelaScraperError) (S (Z.to_nat a)))
      as H404.
    { intros []; [| done].
      destruct (a =? retries - 1)%Z eqn:E1, (a <? retries - 1)%Z eqn:E2;
        try done; lia. }
    destruct (status_code response =? 404)%Z eqn:E404.
    { rewrite H404. destruct (a <? retries - 1)%Z eqn:Elt; [apply Hlater; lia |].
      assert (a = retries - 1)%Z as Ha1 by lia.
      repeat split; [lia | lia |]. rewrite <- Ha1, Eget. simpl.
      unfold raises_for_status. lia. }
    destruct (raises_for_status response) eqn:Eraise.
    { destruct (a <? retries - 1)%Z eqn:Elt; [apply Hlater; lia |].
      assert (a = retries - 1)%Z as Ha1 by lia.
      repeat split; [lia | lia |]. by rewrite <- Ha1, Eget. }
    destruct (decide (k = 0%nat)) as [->|Hk].
    + simpl. repeat split; [lia |]. right. exists response.
      replace (retries - 1)%Z with a by lia. repeat split; [done | lia | done].
    + apply Hlater. lia.
  - destruct (a <? retries - 1)%Z eqn:Elt; [apply Hlater; lia |].
    assert (a = retries - 1)%Z as Ha1 by lia.
    repeat split; [lia | lia |]. by rewrite <- Ha1, Eget.
Qed.

Lemma safe_request_loop_all http_get global_cache url retries use_cache :
  match safe_request_loop http_get global_cache url retries use_cache
          (seqZ 0 retries) 0 with
  | Returns (Some v) global_cache' gets =>
      exists r, v = CachedResponse r /\ status_code r = 200%Z
        /\ (1 <= Z.of_nat gets <= retries)%Z
        /\ http_get (Z.of_nat gets - 1)%Z = Answer r
        /\ (if use_cache
            then OptimizedCache.set global_cache url v = inr global_cache'
            else global_cache' = global_cache)
  | Returns None global_cache' gets =>
      global_cache' = global_cache /\ Z.of_nat gets = Z.max 0 retries
      /\ ((retries <= 0)%Z
          \/ exists r, http_get (retries - 1)%Z = Answer r
               /\ status_code r <> 200%Z /\ raises_for_status r = false)
  | Raises (Raised e) gets =>
      e = EnhancedShamelaScraperError /\ Z.of_nat gets = retries
      /\ (1 <= retries)%Z /\ failed_answer (http_get (retries - 1)%Z)
  | Raises (CacheRaised e) gets =>
      use_cache = true
      /\ exists r, (1 <= Z.of_nat gets <= retries)%Z
           /\ http_get (Z.of_nat gets - 1)%Z = Answer r
           /\ status_code r = 200%Z
           /\ OptimizedCache.set global_cache url (CachedResponse r) = inl e
  end.
Proof.
  destruct (decide (retries <= 0)%Z) as [Hr|Hr].
  { rewrite seqZ_nil by lia. simpl. repeat split; [lia | by left]. }
  pose proof (safe_request_loop_spec http_get global_cache url retries use_cache
                (Z.to_nat retries)) as H.
  replace (retries - Z.of_nat (Z.to_nat retries))%Z with 0%Z in H by lia.
  rewrite Z2Nat.id in H by lia. specialize (H ltac:(lia)).
  change (Z.to_nat 0) with 0%nat in H.
  destruct (safe_request_loop http_get global_cache url retries use_cache
              (seqZ 0 retries) 0) as [[v|] c g|[e|e] g].
  - destruct H as (r & ? & ? & ? & ? & ?). exists r. repeat split; try done; lia.
  - destruct H as (? & ? & [?|?]); [lia |]. repeat split; [done | lia | by right].
  - destruct H as (? & r & ? & ? & ? & ?). split; [done |].
    exists r. repeat split; try done; lia.
  - destruct H as (? & ? & ? & ?). repeat split; try done; lia.
Qed.

(** X7: a value that [safe_request] returns is either the truthy entry
    the cache held for the URL, returned without any request, or the
    response with status 200 to the last request sent; the call sends at
    most [retries] requests, and with the cache in use the response is
    stored under the URL. *)
Theorem safe_request_returns
    http_get global_cache url retries use_cache v global_cache' gets :
  safe_request http_get global_cache url retries use_cache
  = Returns (Some v) global_cache' gets ->
  truthy v = true
  /\ ((gets = 0%nat /\ use_cache = true
       /\ OptimizedCache.cache global_cache !! url = Some v
       /\ OptimizedCache.cache global_cache' = OptimizedCache.cache global_cache)
      \/ (exists r, v = CachedResponse r /\ status_code r = 200%Z
            /\ (1 <= Z.of_nat gets <= retries)%Z
            /\ http_get (Z.of_nat gets - 1)%Z = Answer r
            /\ (use_cache = true ->
                OptimizedCache.cache global_cache' !! url = Some v))).
Proof.
  unfold safe_request. intros H.
  assert (forall c,
            safe_request_loop http_get c url retries use_cache (seqZ 0 retries) 0
            = Returns (Some v) global_cache' gets ->
            truthy v = true
            /\ exists r, v = CachedResponse r /\ status_code r = 200%Z
                 /\ (1 <= Z.of_nat gets <= retries)%Z
                 /\ http_get (Z.of_nat gets - 1)%Z = Answer r
                 /\ (use_cache = true ->
                     OptimizedCache.cache global_cache' !! url = Some v))
    as Hloop.
  { intros c Hc. pose proof (safe_request_loop_all http_get c url retries use_cache) as Hs.
    rewrite Hc in Hs. destruct Hs as (r & -> & H200 & ? & ? & Hset). split.
    - simpl. unfold raises_for_status. rewrite H200. done.
    - exists r. do 4 (split; [done |]). intros ->.
      by apply set_lookup in Hset as [? _]. }
  destruct use_cache.
  - destruct (OptimizedCache.get global_cache url None)
      as [e|[[cached_response|] c]] eqn:Eget; [done | |].
    + destruct (truthy cached_response) eqn:Et.
      * injection H as -> -> <-. split; [done |]. left.
        apply get_hit in Eget as [(? & ? & _) | (_ & ? & _)]; done.
      * apply Hloop in H as [? ?]. split; [done |]. by right.
    + apply Hloop in H as [? ?]. split; [done |]. by right.
  - apply Hloop in H as [? ?]. split; [done |]. by right.
Qed.

Lemma safe_request_returns_witness :
  exists v global_cache',
    safe_request third_time_lucky (OptimizedCache.init 1000) (u "https://shamela.ws/book/43")
      3 true = Returns (Some v) global_cache' 3
    /\ truthy v = true.
Proof.
  do 2 eexists. split; [vm_compute; reflexivity |].
  eapply proj1, (safe_request_returns third_time_lucky (OptimizedCache.init 1000)
                   (u "https://shamela.ws/book/43") 3 true).
  vm_compute. reflexivity.
Defined.

(** X8: [safe_request] returns [None] instead of a response exactly by
    falling off its loop: after [retries] requests (none, when [retries]
    is not positive) of which the last one was answered with a status
    other than 200 and outside 400 to 599, such as 204. *)
Theorem safe_request_returns_none
    http_get global_cache url retries use_cache global_cache' gets :
  safe_request http_get global_cache url retries use_cache
  = Returns None global_cache' gets ->
  Z.of_nat gets = Z.max 0 retries
  /\ OptimizedCache.cache global_cache' = OptimizedCache.cache global_cache
  /\ ((retries <= 0)%Z
      \/ exists r, http_get (retries - 1)%Z = Answer r
           /\ status_code r <> 200%Z /\ raises_for_status r = false).
Proof.
  unfold safe_request. intros H.
  assert (forall c,
            safe_request_loop http_get c url retries use_cache (seqZ 0 retries) 0
            = Returns None global_cache' gets ->
            Z.of_nat gets = Z.max 0 retries /\ global_cache' = c
            /\ ((retries <= 0)%Z
                \/ exists r, http_get (retries - 1)%Z = Answer r
                     /\ status_code r <> 200%Z /\ raises_for_status r = false))
    as Hloop.
  { intros c Hc. pose proof (safe_request_loop_all http_get c url retries use_cache) as Hs.
    rewrite Hc in Hs. by destruct Hs as (? & ? & ?). }
  destruct use_cache.
  - destruct (OptimizedCache.get global_cache url None)
      as [e|[[cached_response|] c]] eqn:Eget; [done | |].
    + destruct (truthy cached_response); [done |].
      apply Hloop in H as (? & -> & ?).
      apply get_hit in Eget as [(_ & ? & _) | (_ & ? & _)]; done.
    + apply Hloop in H as (? & -> & ?). unfold OptimizedCache.get in Eget.
      destruct (OptimizedCache.cache global_cache !! url).
      * by destruct (OptimizedCache.move_to_end _ _).
      * by injection Eget as <-.
  - by apply Hloop in H as (? & -> & ?).
Qed.

Lemma safe_request_returns_none_witness :
  exists global_cache',
    safe_request no_content (OptimizedCache.init 1000) (u "https://shamela.ws/book/43")
      3 true = Returns None global_cache' 3
    /\ status_code {| status_code := 204; text := [] |} <> 200%Z.
Proof.
  eexists. split; [vm_compute; reflexivity |].
  destruct (safe_request_returns_none no_content (OptimizedCache.init 1000)
              (u "https://shamela.ws/book/43") 3 true (OptimizedCache.init 1000) 3)
    as (_ & _ & [H | (r & Hr & H & _)]).
  - vm_compute. reflexivity.
  - lia.
  - by injection Hr as <-.
Defined.

(** X9: when every request fails, with an exception or a status from 400
    to 599, and the cache has nothing for the URL, [safe_request] raises
    [EnhancedShamelaScraperError] after exactly [retries] requests. *)
Theorem safe_request_gives_up http_get global_cache url retries use_cache :
  (1 <= retries)%Z ->
  (forall attempt, (0 <= attempt < retries)%Z -> failed_answer (http_get attempt)) ->
  use_cache = false \/ OptimizedCache.cache global_cache !! url = None ->
  safe_request http_get global_cache url retries use_cache
  = Raises (Raised EnhancedShamelaScraperError) (Z.to_nat retries).
Proof.
  intros Hr Hfail Hmiss.
  assert (forall c,
            safe_request_loop http_get c url retries use_cache (seqZ 0 retries) 0
            = Raises (Raised EnhancedShamelaScraperError) (Z.to_nat retries))
    as Hloop.
  { intros c. pose proof (safe_request_loop_all http_get c url retries use_cache) as Hs.
    assert (forall gets r, (1 <= Z.of_nat gets <= retries)%Z ->
              http_get (Z.of_nat gets - 1)%Z = Answer r ->
              status_code r = 200%Z -> False) as H200.
    { intros gets r Hg Hget Hst. specialize (Hfail (Z.of_nat gets - 1)%Z ltac:(lia)).
      rewrite Hget in Hfail. simpl in Hfail. unfold raises_for_status in Hfail. lia. }
    destruct (safe_request_loop http_get c url retries use_cache (seqZ 0 retries) 0)
      as [[v|] c' g|[e|e] g].
    - destruct Hs as (r & _ & ? & ? & ? & _). exfalso. eauto.
    - destruct Hs as (_ & _ & [?|(r & Hget & _ & Hno)]); [lia |].
      specialize (Hfail (retries - 1)%Z ltac:(lia)). rewrite Hget in Hfail.
      simpl in Hfail. congruence.
    - destruct Hs as (_ & r & ? & ? & ? & _). exfalso. eauto.
    - destruct Hs as (-> & ? & _). do 2 f_equal. lia. }
  unfold safe_request. destruct use_cache; [| apply Hloop].
  destruct Hmiss as [? | Hmiss]; [done |].
  unfold OptimizedCache.get. rewrite Hmiss. apply Hloop.
Qed.

Lemma safe_request_gives_up_witness :
  safe_request (fun _ => RequestException) (OptimizedCache.init 1000)
    (u "https://shamela.ws/book/43") 3 true
  = Raises (Raised EnhancedShamelaScraperError) 3.
Proof.
  apply (safe_request_gives_up (fun _ => RequestException)
           (OptimizedCache.init 1000) (u "https://shamela.ws/book/43") 3 true);
    [lia | done | by right].
Defined.

(** X10: a value (not [None]) that [safe_request] has returned with the
    cache in use it returns again at the next call for the same URL with
    the cache in use, from the cache and without a request, whatever the
    site would answer. *)
Theorem safe_request_cached_again
    http_get global_cache url retries v global_cache' gets http_get' retries' :
  safe_request http_get global_cache url retries true
  = Returns (Some v) global_cache' gets ->
  exists global_cache'',
    safe_request http_get' global_cache' url retries' true
    = Returns (Some v) global_cache'' 0
    /\ OptimizedCache.cache global_cache'' = OptimizedCache.cache global_cache'.
Proof.
  intros H. pose proof (safe_request_returns _ _ _ _ _ _ _ _ H) as [Ht _].
  assert (OptimizedCache.cache global_cache' !! url = Some v
          /\ last (OptimizedCache.access_order global_cache') = Some url)
    as [Hv Hlast].
  { unfold safe_request in H.
    assert (forall c,
              safe_request_loop http_get c url retries true (seqZ 0 retries) 0
              = Returns (Some v) global_cache' gets ->
              OptimizedCache.cache global_cache' !! url = Some v
              /\ last (OptimizedCache.access_order global_cache') = Some url)
      as Hloop.
    { intros c Hc.
      pose proof (safe_request_loop_all http_get c url retries true) as Hs.
      rewrite Hc in Hs. destruct Hs as (r & -> & _ & _ & _ & Hset).
      by apply set_lookup in Hset. }
    destruct (OptimizedCache.get global_cache url None)
      as [e|[[cached_response|] c]] eqn:Eget; [done | | by eapply Hloop].
    destruct (truthy cached_response); [| by eapply Hloop].
    injection H as -> -> <-.
    apply get_hit in Eget as [(Hc & Heq & ?) | (_ & ? & _)]; [| done].
    by rewrite Heq. }
  unfold safe_request, OptimizedCache.get, OptimizedCache.move_to_end.
  rewrite Hv. destruct (remove_last _ _ Hlast) as [l' ->]. rewrite Ht.
  eexists. split; done.
Qed.

Lemma safe_request_cached_again_witness :
  exists v global_cache' global_cache'',
    safe_request third_time_lucky (OptimizedCache.init 1000)
      (u "https://shamela.ws/book/43") 3 true
    = Returns (Some v) global_cache' 3
    /\ safe_request (fun _ => RequestException) global_cache'
         (u "https://shamela.ws/book/43") 3 true
       = Returns (Some v) global_cache'' 0.
Proof.
  do 2 eexists.
  edestruct (safe_request_cached_again third_time_lucky (OptimizedCache.init 1000)
               (u "https://shamela.ws/book/43") 3) as (c & Hc & _);
    [vm_compute; reflexivity |].
  exists c. split; [vm_compute; reflexivity | exact Hc].
Defined.

Lemma safe_request_loop_404_text http_get http_get' global_cache url retries
    use_cache attempts :
  (forall attempt, same_but_404_text (http_get attempt) (http_get' attempt)) ->
  Forall (fun attempt => (attempt <= retries - 1)%Z) attempts ->
  forall gets,
    safe_request_loop http_get global_cache url retries use_cache attempts gets
    = safe_request_loop http_get' global_cache url retries use_cache attempts gets.
Proof.
  intros Hsame. induction 1 as [|attempt attempts Ha _ IH]; intros gets; [done |].
  cbn [safe_request_loop]. rewrite IH.
  destruct (Hsame attempt) as [-> | (r & r' & -> & -> & Hr & Hr')]; [done |].
  rewrite Hr, Hr'. change (404 =? 200)%Z with false.
  change (404 =? 404)%Z with true. cbv iota.
  repeat match goal with
         | |- context [contains ?p ?t] => destruct (contains p t)
         end; simpl;
    destruct (attempt =? retries - 1)%Z eqn:E1, (attempt <? retries - 1)%Z eqn:E2;
    try done; lia.
Qed.

(** X11: the text of a page answered with status 404 has no influence on
    what [safe_request] does: a page that says it does not exist is
    requested again as often as any other 404. *)
Theorem safe_request_404_text http_get http_get' global_cache url retries use_cache :
  (forall attempt, same_but_404_text (http_get attempt) (http_get' attempt)) ->
  safe_request http_get global_cache url retries use_cache
  = safe_request http_get' global_cache url retries use_cache.
Proof.
  intros Hsame. unfold safe_request.
  assert (forall c,
            safe_request_loop http_get c url retries use_cache (seqZ 0 retries) 0
            = safe_request_loop http_get' c url retries use_cache (seqZ 0 retries) 0)
    as Hloop.
  { intros c. apply safe_request_loop_404_text; [done |].
    apply Forall_forall. intros attempt Ha%elem_of_seqZ. lia. }
  destruct use_cache; [| apply Hloop].
  destruct (OptimizedCache.get global_cache url None) as [e|[[v|] c]]; [done | |].
  - by rewrite Hloop.
  - apply Hloop.
Qed.

Lemma safe_request_404_text_witness :
  safe_request
    (fun _ => Answer {| status_code := 404; text := u "Page not found" |})
    (OptimizedCache.init 1000) (u "https://shamela.ws/book/0") 3 true
  = safe_request
      (fun _ => Answer {| status_code := 404; text := u "try again" |})
      (OptimizedCache.init 1000) (u "https://shamela.ws/book/0") 3 true.
Proof.
  apply safe_request_404_text. intros attempt. right. by do 2 eexists.
Defined.

(** ** The navigation map *)

Lemma sorted_keys (m : gmap Z Z) :
  let keys := py_sorted Z.leb (map_to_list m).*1 in
  StronglySorted Z.le keys /\ forall k, k ∈ keys <-> is_Some (m !! k).
Proof.
  intros keys.
  assert (keys ≡ₚ (map_to_list m).*1) as Hperm by apply py_sorted_perm.
  split.
  - exact (py_sorted_by_key (fun x : Z => x) _).
  - intros k. rewrite Hperm, list_elem_of_fmap. split.
    + intros ([k' s] & -> & Hin%elem_of_map_to_list). eauto.
    + intros [s Hs]. exists (k, s). split; [done |].
      by apply elem_of_map_to_list.
Qed.

Lemma find_sorted (f : Z -> bool) (l : list Z) :
  match List.find f l with
  | Some p => p ∈ l /\ f p = true
              /\ (StronglySorted Z.le l -> forall q, q ∈ l -> f q = true -> (p <= q)%Z)
  | None => forall q, q ∈ l -> f q = false
  end.
Proof.
  induction l as [|x l IH]; simpl; [by intros q ?%elem_of_nil |].
  destruct (f x) eqn:Ex.
  - split; [left |]. split; [done |]. intros Hs q Hq _.
    apply StronglySorted_inv in Hs as [_ Hs]. rewrite Forall_forall in Hs.
    apply elem_of_cons in Hq as [->|Hq]; [lia | by apply Hs].
  - destruct (List.find f l) as [p|].
    + destruct IH as (Hin & Hp & Hmin). split; [by right |]. split; [done |].
      intros Hs q Hq Hfq. apply StronglySorted_inv in Hs as [Hs _].
      apply elem_of_cons in Hq as [->|Hq]; [congruence | by apply Hmin].
    + intros q [->|Hq]%elem_of_cons; [done | by apply IH].
Qed.

Lemma last_sorted (l : list Z) p :
  StronglySorted Z.le l -> last l = Some p -> forall q, q ∈ l -> (q <= p)%Z.
Proof.
  intros Hs [l' ->]%last_Some q Hq.
  apply elem_of_app in Hq as [Hq | ->%list_elem_of_singleton]; [| lia].
  induction l' as [|x l' IH]; [by apply elem_of_nil in Hq |].
  apply StronglySorted_inv in Hs as [Hs Hx]. rewrite Forall_forall in Hx.
  apply elem_of_cons in Hq as [->|Hq]; [| by apply IH].
  apply Hx. apply elem_of_app. right. left.
Qed.

(** X12: [find_internal_page_for_printed] returns nothing only for the
    empty map.  Otherwise it returns the internal page recorded for the
    printed number itself if there is one, else the page of the smallest
    recorded printed number above it, else the page of the largest
    recorded printed number. *)
Theorem find_internal_page_for_printed_spec printed_page navigation_map :
  match find_internal_page_for_printed printed_page navigation_map with
  | None => navigation_map = ∅
  | Some internal_page =>
      exists p,
        navigation_map !! p = Some internal_page
        /\ (p = printed_page
            \/ (navigation_map !! printed_page = None /\ (printed_page < p)%Z
                /\ forall q, is_Some (navigation_map !! q) ->
                             (printed_page <= q)%Z -> (p <= q)%Z)
            \/ (navigation_map !! printed_page = None /\ (p < printed_page)%Z
                /\ forall q, is_Some (navigation_map !! q) -> (q <= p)%Z))
  end.
Proof.
  unfold find_internal_page_for_printed.
  destruct (navigation_map !! printed_page) as [n|] eqn:E; [by eauto |].
  pose proof (sorted_keys navigation_map) as [Hs Hkeys]. simpl in Hs, Hkeys.
  set (keys := py_sorted Z.leb (map_to_list navigation_map).*1) in *.
  pose proof (find_sorted (fun p => (printed_page <=? p)%Z) keys) as Hfind.
  destruct (List.find _ keys) as [p|].
  - destruct Hfind as (Hin & Hp & Hmin). apply Hkeys in Hin as [n Hn].
    rewrite Hn. exists p. split; [done |]. right. left.
    assert (p <> printed_page) by congruence.
    split; [done |]. split; [lia |]. intros q Hq%Hkeys Hle.
    apply Hmin; [done | done | lia].
  - destruct (last keys) as [p|] eqn:El.
    + assert (p ∈ keys) as Hin.
      { apply last_Some in El as [l' ->]. apply elem_of_app. right. left. }
      pose proof (Hfind p Hin) as Hp. simpl in Hp.
      apply Hkeys in Hin as [n Hn]. rewrite Hn. exists p. split; [done |].
      do 2 right. split; [done |]. split; [lia |].
      intros q Hq%Hkeys. by eapply last_sorted.
    + apply last_None in El. apply map_eq. intros k. rewrite lookup_empty.
      destruct (navigation_map !! k) eqn:Ek; [| done].
      assert (k ∈ keys) as Hk by (apply Hkeys; eauto).
      rewrite El in Hk. by apply elem_of_nil in Hk.
Qed.

Lemma record_page_add env normalized_id m n :
  record_page env normalized_id m n
  = match printed_of env normalized_id n with
    | Some p => add_volume m (p, n)
    | None => m
    end.
Proof.
  unfold record_page, printed_of.
  destruct (get_soup env normalized_id n) as [soup|]; [| done].
  destruct (extract_printed_page_number _) as [[p|]|]; try done.
  destruct (p =? 0)%Z; [done |]. unfold add_volume. simpl.
  destruct (m !! p) as [known|] eqn:E; [| done].
  destruct (n <? known)%Z eqn:Elt.
  - by replace (Z.min known n) with n by lia.
  - replace (Z.min known n) with known by lia. by rewrite insert_id.
Qed.

Lemma foldl_record_page env normalized_id l : forall m,
  foldl (record_page env normalized_id) m l
  = foldl add_volume m
      (omap (fun n => (fun p => (p, n)) <$> printed_of env normalized_id n) l).
Proof.
  induction l as [|n l IH]; intros m; [done |]. simpl.
  rewrite IH, record_page_add. by destruct (printed_of env normalized_id n).
Qed.

(** The map holds, for every printed number, the first of the pages
    read that bears it. *)
Lemma navigation_map_lookup env normalized_id l p n :
  foldl (record_page env normalized_id) ∅ l !! p = Some n
  <-> n ∈ l /\ printed_of env normalized_id n = Some p
      /\ forall n', n' ∈ l -> printed_of env normalized_id n' = Some p -> (n <= n')%Z.
Proof.
  rewrite foldl_record_page.
  change (foldl add_volume ∅ ?d) with (unique_volumes_of d).
  rewrite unique_volumes_lookup, min_of_Some, elem_of_starts_of.
  assert (forall k, (p, k) ∈ omap (fun n => (fun p => (p, n))
                                      <$> printed_of env normalized_id n) l
                    <-> k ∈ l /\ printed_of env normalized_id k = Some p) as Hin.
  { intros k. rewrite list_elem_of_omap. split.
    - intros (n0 & Hn0 & Hp). destruct (printed_of env normalized_id n0) eqn:E; [| done].
      simpl in Hp. by injection Hp as -> ->.
    - intros [Hk Hp]. exists k. by rewrite Hp. }
  rewrite Hin, Forall_forall. split.
  - intros ([? ?] & Hmin). repeat split; try done.
    intros n' Hn' Hp. apply Hmin, elem_of_starts_of, Hin. done.
  - intros (? & ? & Hmin). split; [done |].
    intros k [? ?]%elem_of_starts_of%Hin. by apply Hmin.
Qed.

Lemma elem_of_py_range a b step x :
  (0 < step)%Z ->
  x ∈ py_range a b step
  <-> exists k : nat, x = (a + Z.of_nat k * step)%Z /\ (x < b)%Z.
Proof.
  intros Hstep. unfold py_range. assert ((0 <? step)%Z = true) as -> by lia.
  rewrite list_elem_of_fmap. split.
  - intros (k & -> & Hk%elem_of_seq). exists k. split; [done |].
    assert (step * ((b - a + step - 1) / step) <= b - a + step - 1)%Z
      by (apply Z.mul_div_le; lia).
    assert (Z.of_nat k + 1 <= (b - a + step - 1) / step)%Z by lia. nia.
  - intros (k & -> & Hlt). exists k. split; [done |]. apply elem_of_seq.
    assert (Z.of_nat k + 1 <= (b - a + step - 1) / step)%Z; [| lia].
    apply Z.div_le_lower_bound; [done | nia].
Qed.

Lemma seq_lt_sorted s n : StronglySorted lt (seq s n).
Proof.
  revert s. induction n as [|n IH]; intros s; simpl; constructor; [apply IH |].
  apply Forall_forall. intros x Hx%elem_of_seq. lia.
Qed.

Lemma py_range_sorted a b step :
  (0 < step)%Z -> StronglySorted Z.lt (py_range a b step).
Proof.
  intros Hstep. unfold py_range.
  eapply StronglySorted_fmap; [| apply seq_lt_sorted].
  intros x y Hxy. simpl. nia.
Qed.

Lemma py_range_head a b step :
  (0 < step)%Z -> (a < b)%Z -> head (py_range a b step) = Some a.
Proof.
  intros Hstep Hab. unfold py_range. assert ((0 <? step)%Z = true) as -> by lia.
  assert (1 <= (b - a + step - 1) / step)%Z as Hn.
  { apply Z.div_le_lower_bound; lia. }
  destruct (Z.to_nat ((b - a + step - 1) / step)) as [|n] eqn:En; [lia |].
  simpl. f_equal. lia.
Qed.

Lemma py_range_step_1 total : py_range 1 (total + 1) 1 = seqZ 1 total.
Proof.
  unfold py_range, seqZ. simpl.
  replace ((total + 1 - 1 + 1 - 1) / 1)%Z with total by (rewrite Z.div_1_r; lia).
  apply list_fmap_ext. intros _ k _. lia.
Qed.

Lemma lt_sorted_last (l : list Z) x y :
  StronglySorted Z.lt l -> last l = Some x -> y ∈ l -> (y <= x)%Z.
Proof.
  intros Hs Hl Hy. apply (last_sorted l x); [| done | done].
  clear -Hs. induction Hs as [|z l _ IH Hz]; constructor; [done |].
  eapply Forall_impl; [exact Hz |]. intros; simpl in *; lia.
Qed.

(** X13: the pages sampled for the navigation map of a book with at
    least one page start with page 1, end with the last page and ascend
    strictly; they are all the pages of a book with at most 50 pages,
    and at most 31 pages of any longer book. *)
Theorem sample_pages_of_spec total_pages :
  (1 <= total_pages)%Z ->
  head (sample_pages_of total_pages) = Some 1%Z
  /\ last (sample_pages_of total_pages) = Some total_pages
  /\ StronglySorted Z.lt (sample_pages_of total_pages)
  /\ ((total_pages <= 50)%Z -> sample_pages_of total_pages = seqZ 1 total_pages)
  /\ ((50 < total_pages)%Z -> (length (sample_pages_of total_pages) <= 31)%nat).
Proof.
  intros Ht. unfold sample_pages_of.
  assert (forall step, (0 < step)%Z ->
            let s := py_range 1 (total_pages + 1) step in
            let s' := if bool_decide (1%Z ∈ s) then s else 1%Z :: s in
            let s'' := if bool_decide (total_pages ∈ s') then s'
                       else s' ++ [total_pages] in
            head s'' = Some 1%Z /\ last s'' = Some total_pages
            /\ StronglySorted Z.lt s''
            /\ (length s'' <= S (length s))%nat) as Hgen.
  { intros step Hstep s s' s''.
    pose proof (py_range_head 1 (total_pages + 1) step Hstep ltac:(lia)) as Hhead.
    pose proof (py_range_sorted 1 (total_pages + 1) step Hstep) as Hsorted.
    fold s in Hhead, Hsorted.
    assert (s' = s) as Hs'.
    { unfold s'. rewrite bool_decide_eq_true_2; [done |].
      destruct s; [done |]. injection Hhead as ->. left. }
    unfold s''. rewrite Hs'. case_bool_decide as Hin.
    - repeat split; [done | | done | lia].
      destruct (last s) as [x|] eqn:El.
      + f_equal. pose proof (lt_sorted_last s x total_pages Hsorted El Hin).
        assert (x ∈ s) as Hx.
        { apply last_Some in El as [l' ->]. apply elem_of_app. right. left. }
        apply elem_of_py_range in Hx as (k & _ & ?); [lia | done].
      + apply last_None in El. rewrite El in Hin. by apply elem_of_nil in Hin.
    - repeat split.
      + by rewrite head_snoc, Hhead.
      + apply last_snoc.
      + apply StronglySorted_app_2; [| done | repeat constructor].
        intros x ? Hx ->%list_elem_of_singleton.
        assert (x <> total_pages) by (by intros ->).
        apply elem_of_py_range in Hx as (k & _ & ?); [lia | done].
      + rewrite length_app. simpl. lia. }
  destruct (total_pages <=? 50)%Z eqn:E50.
  - destruct (Hgen 1%Z ltac:(lia)) as (Hh & Hl & Hs & _).
    assert (1%Z ∈ py_range 1 (total_pages + 1) 1) as H1.
    { rewrite py_range_step_1. apply elem_of_seqZ. lia. }
    assert (total_pages ∈ py_range 1 (total_pages + 1) 1) as H2.
    { rewrite py_range_step_1. apply elem_of_seqZ. lia. }
    rewrite (bool_decide_eq_true_2 _ H1), (bool_decide_eq_true_2 _ H2)
      in Hh, Hl, Hs.
    repeat split; try done; [by rewrite py_range_step_1 | lia].
  - set (step := Z.max 1 (total_pages / 20)).
    destruct (Hgen step ltac:(lia)) as (Hh & Hl & Hs & Hlen).
    repeat split; try done; [lia |]. intros _.
    etransitivity; [exact Hlen |]. unfold py_range.
    assert ((0 <? step)%Z = true) as -> by lia.
    rewrite length_fmap, length_seq.
    assert ((total_pages + 1 - 1 + step - 1) / step <= 30)%Z; [| lia].
    assert (50 < total_pages)%Z by lia.
    assert (20 * (total_pages / 20) <= total_pages)%Z
      by (apply Z.mul_div_le; lia).
    assert (total_pages < 20 * (total_pages / 20 + 1))%Z.
    { pose proof (Z.mul_succ_div_gt total_pages 20 ltac:(lia)). lia. }
    apply Z.div_le_upper_bound; lia.
Qed.

Lemma sample_pages_of_spec_witness :
  head (sample_pages_of 1000) = Some 1%Z
  /\ last (sample_pages_of 1000) = Some 1000%Z
  /\ (length (sample_pages_of 1000) <= 31)%nat.
Proof.
  destruct (sample_pages_of_spec 1000 ltac:(lia)) as (Hh & Hl & _ & _ & Hn).
  split; [exact Hh |]. split; [exact Hl |]. apply Hn. lia.
Defined.

(** X14: the navigation map of a book with original pagination holds,
    for every printed number other than 0 found on a sampled page that
    could be read, the first sampled page that bears it, and nothing
    else. *)
Theorem build_page_navigation_map_spec
    env book_id total_pages navigation_map :
  build_page_navigation_map env book_id total_pages true = Ok navigation_map ->
  exists normalized_id,
    normalize_book_id book_id = Ok normalized_id
    /\ forall p n,
         navigation_map !! p = Some n
         <-> n ∈ sample_pages_of total_pages
             /\ printed_of env normalized_id n = Some p
             /\ forall n', n' ∈ sample_pages_of total_pages ->
                           printed_of env normalized_id n' = Some p -> (n <= n')%Z.
Proof.
  unfold build_page_navigation_map. simpl.
  destruct (normalize_book_id book_id) as [normalized_id|]; [| done].
  simpl. intros [= <-]. exists normalized_id. split; [done |].
  intros p n. apply navigation_map_lookup.
Qed.

Lemma build_page_navigation_map_spec_witness :
  exists navigation_map,
    build_page_navigation_map two_part_numbering (u "43") 6 true
    = Ok navigation_map
    /\ navigation_map !! 2%Z = Some 2%Z.
Proof.
  eexists. split; [vm_compute; reflexivity |].
  destruct (build_page_navigation_map_spec two_part_numbering (u "43") 6 _ eq_refl)
    as (normalized_id & Hid & H).
  vm_compute in Hid. injection Hid as <-. apply H.
  split; [vm_compute; by repeat constructor |].
  split; [vm_compute; reflexivity |].
  intros n' Hn' Hp.
  assert (n' ∈ [1; 2; 3; 4; 5; 6]%Z) as Hin by exact Hn'.
  repeat (apply elem_of_cons in Hin as [-> | Hin]; [vm_compute in Hp; try done; lia |]).
  by apply elem_of_nil in Hin.
Defined.

(** X15: looking up the printed number of a sampled page in the
    navigation map built for the book leads to the first sampled page
    with that printed number, which is the page itself when no earlier
    page bears the same number. *)
Theorem navigation_round_trip
    env book_id total_pages navigation_map normalized_id n p :
  build_page_navigation_map env book_id total_pages true = Ok navigation_map ->
  normalize_book_id book_id = Ok normalized_id ->
  n ∈ sample_pages_of total_pages ->
  printed_of env normalized_id n = Some p ->
  exists first,
    find_internal_page_for_printed p navigation_map = Some first
    /\ (first <= n)%Z
    /\ first ∈ sample_pages_of total_pages
    /\ printed_of env normalized_id first = Some p
    /\ ((forall n', n' ∈ sample_pages_of total_pages -> (n' < n)%Z ->
           printed_of env normalized_id n' <> Some p) -> first = n).
Proof.
  unfold build_page_navigation_map. simpl. intros H Hid Hn Hp.
  rewrite Hid in H. simpl in H. injection H as <-.
  set (m := foldl (record_page env normalized_id) ∅ (sample_pages_of total_pages)).
  assert (is_Some (m !! p)) as [first Hfirst].
  { destruct (m !! p) as [x|] eqn:E; [eauto |]. exfalso.
    unfold m in E. rewrite foldl_record_page in E.
    change (foldl add_volume ∅ ?d) with (unique_volumes_of d) in E.
    rewrite unique_volumes_lookup in E.
    assert (n ∈ starts_of p
              (omap (fun n => (fun p => (p, n)) <$> printed_of env normalized_id n)
                    (sample_pages_of total_pages))) as Hin.
    { apply elem_of_starts_of, list_elem_of_omap. exists n. by rewrite Hp. }
    destruct (starts_of p _); [by apply elem_of_nil in Hin | done]. }
  exists first. unfold find_internal_page_for_printed. rewrite Hfirst.
  apply navigation_map_lookup in Hfirst as (Hin & Hpf & Hmin).
  repeat split; try done; [by apply Hmin |].
  intros Hnone. specialize (Hmin n Hn Hp).
  destruct (decide (first = n)) as [|Hne]; [done |].
  exfalso. apply (Hnone first Hin); [lia | done].
Qed.

Lemma navigation_round_trip_witness :
  exists navigation_map,
    build_page_navigation_map two_part_numbering (u "43") 6 true
    = Ok navigation_map
    /\ find_internal_page_for_printed 2 navigation_map = Some 2%Z
    /\ printed_of two_part_numbering (u "43") 5 = Some 2%Z.
Proof.
  exists (foldl (record_page two_part_numbering (u "43")) ∅ (sample_pages_of 6)).
  assert (build_page_navigation_map two_part_numbering (u "43") 6 true
          = Ok (foldl (record_page two_part_numbering (u "43")) ∅
                  (sample_pages_of 6))) as Hb by (vm_compute; reflexivity).
  split; [exact Hb |].
  destruct (navigation_round_trip two_part_numbering (u "43") 6 _ (u "43") 5 2 Hb)
    as (first & Hfind & Hle & Hin & Hp & _).
  - vm_compute. reflexivity.
  - vm_compute. by repeat constructor.
  - vm_compute. reflexivity.
  - split; [| vm_compute; reflexivity].
    rewrite Hfind. f_equal.
    assert (first ∈ [1; 2; 3; 4; 5; 6]%Z) as Hin' by exact Hin.
    repeat (apply elem_of_cons in Hin' as [-> | Hin'];
            [vm_compute in Hp; try done; lia |]).
    by apply elem_of_nil in Hin'.
Defined.
